(** * OrderedCounter: a counter that remembers first-seen order

    A shallow embedding of [OrderedCounter.py].  The class inherits from
    [collections.Counter] and [collections.OrderedDict]; its instances are
    mutable objects, so the methods are embedded as computations over an
    object store.  A dictionary is its list of (key, count) items in
    iteration order; counts are Python integers, hence [Z]. *)

From Stdlib Require Import ZArith Ascii String.
From stdpp Require Import base list option strings.

Local Open Scope Z_scope.

(** ** Classes and the object store *)

Inductive class := Cdict | COrderedDict | CCounter | COrderedCounter.

(** [class OrderedCounter(Counter, OrderedDict)], with [Counter] and
    [OrderedDict] both deriving from [dict]. *)
Definition issubclass (c d : class) : bool :=
  match c, d with
  | _, Cdict => true
  | COrderedDict, COrderedDict => true
  | CCounter, CCounter => true
  | COrderedCounter, (COrderedDict | CCounter | COrderedCounter) => true
  | _, _ => false
  end.

(** [cls.__name__] *)
Definition class_name (c : class) : string :=
  match c with
  | Cdict => "dict"
  | COrderedDict => "OrderedDict"
  | CCounter => "Counter"
  | COrderedCounter => "OrderedCounter"
  end.

Definition loc := nat.

(** Values that can be passed as an operand or returned by a method: a
    reference to a dictionary object, the [NotImplemented] singleton, or
    some other object that is no dictionary at all. *)
Inductive value :=
  | VRef (l : loc)
  | VNotImplemented
  | VNone
  | VInt (n : Z).

Section Keys.

Context {K : Type} `{EqDecision K}.

Record object := Obj { ob_class : class; ob_items : list (K * Z) }.

Abbreviation heap := (list object).

(** ** Dictionary contents *)

Definition keys (d : list (K * Z)) : list K := d.*1.

Fixpoint dict_get (d : list (K * Z)) (k : K) : option Z :=
  match d with
  | [] => None
  | (k', v) :: d' => if decide (k = k') then Some v else dict_get d' k
  end.

(** [d[k] = v] on an ordered dictionary: an existing key keeps its place,
    a new key goes to the end. *)
Fixpoint dict_set (k : K) (v : Z) (d : list (K * Z)) : list (K * Z) :=
  match d with
  | [] => [(k, v)]
  | (k', v') :: d' =>
      if decide (k = k') then (k', v) :: d' else (k', v') :: dict_set k v d'
  end.

Fixpoint dict_del (k : K) (d : list (K * Z)) : list (K * Z) :=
  match d with
  | [] => []
  | (k', v') :: d' =>
      if decide (k = k') then dict_del k d' else (k', v') :: dict_del k d'
  end.

Definition dict_contains (d : list (K * Z)) (k : K) : bool :=
  bool_decide (k ∈ keys d).

(** [Counter.__missing__] returns 0 and stores nothing. *)
Definition count_of (d : list (K * Z)) (k : K) : Z := default 0 (dict_get d k).

(** ** Computations over the store; [None] is a raised exception *)

Definition M (A : Type) : Type := heap → option (A * heap).

Definition ret {A} (x : A) : M A := λ h, Some (x, h).

Definition raise {A} : M A := λ _, None.

Definition bind {A B} (m : M A) (f : A → M B) : M B :=
  λ h, match m h with Some (x, h') => f x h' | None => None end.

Notation "x <- c1 ;; c2" := (bind c1 (λ x, c2))
  (at level 100, c1 at next level, right associativity).
Notation "c1 ;; c2" := (bind c1 (λ _, c2))
  (at level 100, right associativity).

(** [for x in l: body(x)].  The loops of this class go through the items
    of one dictionary and store into another, or overwrite the count of
    the key they are at; what they go through is the item list read at the
    start of the loop. *)
Fixpoint for_each {A} (l : list A) (body : A → M unit) : M unit :=
  match l with
  | [] => ret tt
  | x :: l' => body x ;; for_each l' body
  end.

Definition load (l : loc) : M object :=
  λ h, match h !! l with Some o => Some (o, h) | None => None end.

Definition store (l : loc) (o : object) : M unit :=
  λ h, match h !! l with Some _ => Some (tt, <[l := o]> h) | None => None end.

Definition alloc (o : object) : M loc :=
  λ h, Some (length h, h ++ [o]).

(** ** Methods inherited from [dict], [OrderedDict] and [Counter] *)

Definition class_of (self : loc) : M class :=
  o <- load self ;; ret (ob_class o).

(** [cls()] *)
Definition new (cls : class) : M loc := alloc (Obj cls []).

Definition isinstance (v : value) (cls : class) : M bool :=
  match v with
  | VRef l => c <- class_of l ;; ret (issubclass c cls)
  | _ => ret false
  end.

Definition as_ref (v : value) : M loc :=
  match v with VRef l => ret l | _ => raise end.

(** [self.items()] *)
Definition items (self : loc) : M (list (K * Z)) :=
  o <- load self ;; ret (ob_items o).

(** [self[k]] on a [Counter] *)
Definition getitem (self : loc) (k : K) : M Z :=
  o <- load self ;; ret (count_of (ob_items o) k).

(** [k in self] *)
Definition contains (self : loc) (k : K) : M bool :=
  o <- load self ;; ret (dict_contains (ob_items o) k).

(** [self[k] = v] *)
Definition setitem (self : loc) (k : K) (v : Z) : M unit :=
  o <- load self ;; store self (Obj (ob_class o) (dict_set k v (ob_items o))).

(** [del self[k]]; [Counter.__delitem__] ignores a missing key. *)
Definition delitem (self : loc) (k : K) : M unit :=
  o <- load self ;;
  if dict_contains (ob_items o) k
  then store self (Obj (ob_class o) (dict_del k (ob_items o)))
  else ret tt.

(** What a constructor may be given: nothing, an iterable of keys, or a
    mapping. *)
Inductive source :=
  | SrcNone
  | SrcIter (elems : list K)
  | SrcMapping (m : loc).

(** [Counter.update]: a mapping is copied item by item when [self] is
    empty and added to the present counts otherwise; the elements of any
    other iterable are counted one by one. *)
Definition Counter_update (self : loc) (src : source) : M unit :=
  match src with
  | SrcNone => ret tt
  | SrcMapping m =>
      mine <- items self ;;
      theirs <- items m ;;
      match mine with
      | [] => for_each theirs (λ '(key, v), setitem self key v)
      | _ :: _ =>
          for_each theirs (λ '(elem, count),
            old <- getitem self elem ;; setitem self elem (count + old))
      end
  | SrcIter elems =>
      for_each elems (λ elem,
        old <- getitem self elem ;; setitem self elem (old + 1))
  end.

(** [cls(src)] for [cls] one of the counter classes: [Counter.__init__]
    updates the new, empty instance from [src]. *)
Definition Counter_new (cls : class) (src : source) : M loc :=
  self <- new cls ;;
  Counter_update self src ;;
  ret self.

Definition OrderedCounter (src : source) : M loc :=
  Counter_new COrderedCounter src.

(** [cls(src)] for a mapping [src] and [cls] one of [dict], [OrderedDict] *)
Definition dict_new (cls : class) (src : loc) : M loc :=
  d <- new cls ;;
  theirs <- items src ;;
  for_each theirs (λ '(key, v), setitem d key v) ;;
  ret d.

Definition OrderedDict (src : loc) : M loc := dict_new COrderedDict src.

(** Calling a class object on one mapping argument. *)
Definition call_class (cls : class) (arg : loc) : M loc :=
  match cls with
  | CCounter | COrderedCounter => Counter_new cls (SrcMapping arg)
  | Cdict | COrderedDict => dict_new cls arg
  end.

(** [list(self)]: the keys in iteration order *)
Definition order (self : loc) : M (list K) :=
  mine <- items self ;; ret (keys mine).

(** The mutators: [self[k] += delta], [self[k] = n], [del self[k]]. *)
Inductive mutation :=
  | Increment (k : K) (delta : Z)
  | SetCount (k : K) (n : Z)
  | Delete (k : K).

Definition mutate (self : loc) (m : mutation) : M unit :=
  match m with
  | Increment k delta => old <- getitem self k ;; setitem self k (old + delta)
  | SetCount k n => setitem self k n
  | Delete k => delitem self k
  end.

(** ** The methods of [OrderedCounter] *)

(** ['%s(%r)' % (self.__class__.__name__, OrderedDict(self))]: the result
    is kept as the two arguments of the format, the class name and the
    ordered dictionary whose own representation lists the items in order;
    the characters of the text depend on how the keys are written. *)
Definition __repr__ (self : loc) : M (string * loc) :=
  cls <- class_of self ;;
  d <- OrderedDict self ;;
  ret (class_name cls, d).

Definition __reduce__ (self : loc) : M (class * loc) :=
  cls <- class_of self ;;
  d <- OrderedDict self ;;
  ret (cls, d).

Definition __add__ (self : loc) (other : value) : M value :=
  isc <- isinstance other CCounter ;;
  if negb isc then ret VNotImplemented else
  other <- as_ref other ;;
  cls <- class_of self ;;
  result <- new cls ;;
  mine <- items self ;;
  for_each mine (λ '(elem, count),
    other_count <- getitem other elem ;;
    let newcount := count + other_count in
    if 0 <? newcount then setitem result elem newcount else ret tt) ;;
  theirs <- items other ;;
  for_each theirs (λ '(elem, count),
    seen <- contains self elem ;;
    if negb seen && (0 <? count) then setitem result elem count else ret tt) ;;
  ret (VRef result).

Definition __sub__ (self : loc) (other : value) : M value :=
  isc <- isinstance other CCounter ;;
  if negb isc then ret VNotImplemented else
  other <- as_ref other ;;
  cls <- class_of self ;;
  result <- new cls ;;
  mine <- items self ;;
  for_each mine (λ '(elem, count),
    other_count <- getitem other elem ;;
    let newcount := count - other_count in
    if 0 <? newcount then setitem result elem newcount else ret tt) ;;
  theirs <- items other ;;
  for_each theirs (λ '(elem, count),
    seen <- contains self elem ;;
    if negb seen && (count <? 0) then setitem result elem (0 - count)
    else ret tt) ;;
  ret (VRef result).

Definition __or__ (self : loc) (other : value) : M value :=
  isc <- isinstance other CCounter ;;
  if negb isc then ret VNotImplemented else
  other <- as_ref other ;;
  cls <- class_of self ;;
  result <- new cls ;;
  mine <- items self ;;
  for_each mine (λ '(elem, count),
    other_count <- getitem other elem ;;
    let newcount := if count <? other_count then other_count else count in
    if 0 <? newcount then setitem result elem newcount else ret tt) ;;
  theirs <- items other ;;
  for_each theirs (λ '(elem, count),
    seen <- contains self elem ;;
    if negb seen && (0 <? count) then setitem result elem count else ret tt) ;;
  ret (VRef result).

Definition __and__ (self : loc) (other : value) : M value :=
  isc <- isinstance other CCounter ;;
  if negb isc then ret VNotImplemented else
  other <- as_ref other ;;
  cls <- class_of self ;;
  result <- new cls ;;
  mine <- items self ;;
  for_each mine (λ '(elem, count),
    other_count <- getitem other elem ;;
    let newcount := if count <? other_count then count else other_count in
    if 0 <? newcount then setitem result elem newcount else ret tt) ;;
  ret (VRef result).

(** [x - y]: the method is looked up on the class of [x], here for the
    class [OrderedCounter] (the subtraction of the other classes is not
    part of this file and is left out); no class defines [__rsub__], so a
    [NotImplemented] answer ends in a [TypeError]. *)
Definition binary_sub (x y : value) : M value :=
  l <- as_ref x ;;
  cls <- class_of l ;;
  match cls with
  | COrderedCounter =>
      r <- __sub__ l y ;;
      match r with VNotImplemented => raise | _ => ret r end
  | _ => raise
  end.

Definition __xor__ (self : loc) (other : value) : M value :=
  isc <- isinstance other CCounter ;;
  if negb isc then ret VNotImplemented else
  u <- __or__ self other ;;
  i <- __and__ self other ;;
  binary_sub u i.

Definition __pos__ (self : loc) : M value :=
  cls <- class_of self ;;
  result <- new cls ;;
  mine <- items self ;;
  for_each mine (λ '(elem, count),
    if 0 <? count then setitem result elem count else ret tt) ;;
  ret (VRef result).

Definition __neg__ (self : loc) : M value :=
  cls <- class_of self ;;
  result <- new cls ;;
  mine <- items self ;;
  for_each mine (λ '(elem, count),
    if count <? 0 then setitem result elem (0 - count) else ret tt) ;;
  ret (VRef result).

(** [x + y], dispatched like [x - y]. *)
Definition binary_add (x y : value) : M value :=
  l <- as_ref x ;;
  cls <- class_of l ;;
  match cls with
  | COrderedCounter =>
      r <- __add__ l y ;;
      match r with VNotImplemented => raise | _ => ret r end
  | _ => raise
  end.

(** Reconstruction from what [__reduce__] returns, as [copy] and [pickle]
    do it: the callable applied to the argument tuple. *)
Definition rebuild (self : loc) : M loc :=
  red <- __reduce__ self ;;
  call_class red.1 red.2.

(** [(a & b) + (a ^ b)] *)
Definition and_plus_xor (a : loc) (b : value) : M value :=
  i <- __and__ a b ;;
  x <- __xor__ a b ;;
  binary_add i x.

Inductive binop := Add | Subtract | Union | Intersect | SymmetricDifference.

Definition binop_method (op : binop) : loc → value → M value :=
  match op with
  | Add => __add__
  | Subtract => __sub__
  | Union => __or__
  | Intersect => __and__
  | SymmetricDifference => __xor__
  end.

Inductive unop := Positive | Negate.

Definition unop_method (op : unop) : loc → M value :=
  match op with Positive => __pos__ | Negate => __neg__ end.

(** ** Observations *)

(** The items of the object a computation returns a reference to. *)
Definition result_items (m : M value) (h : heap) : option (list (K * Z)) :=
  match m h with
  | Some (VRef r, h') => ob_items <$> h' !! r
  | _ => None
  end.

(** [l] holds a dictionary of class [cls] with items [d]; the keys of a
    dictionary are pairwise distinct. *)
Definition dict_at (h : heap) (l : loc) (cls : class) (d : list (K * Z)) : Prop :=
  h !! l = Some (Obj cls d) ∧ NoDup (keys d).

(** [h'] has every object of [h] unchanged, at its place. *)
Definition preserves (h h' : heap) : Prop :=
  ∀ l o, h !! l = Some o → h' !! l = Some o.

(** ** The loops, read as functions on the items of [result] *)

Definition put_if (f : K → Z → option Z) (acc : list (K * Z)) (kc : K * Z)
    : list (K * Z) :=
  match f kc.1 kc.2 with Some v => dict_set kc.1 v acc | None => acc end.

Definition loop (f : K → Z → option Z) (its acc : list (K * Z)) : list (K * Z) :=
  foldl (put_if f) acc its.

Definition keep_if (b : bool) (v : Z) : option Z := if b then Some v else None.

Definition add_items (a b : list (K * Z)) : list (K * Z) :=
  loop (λ k c, keep_if (negb (dict_contains a k) && (0 <? c)) c) b
    (loop (λ k c, keep_if (0 <? c + count_of b k) (c + count_of b k)) a []).

Definition sub_items (a b : list (K * Z)) : list (K * Z) :=
  loop (λ k c, keep_if (negb (dict_contains a k) && (c <? 0)) (0 - c)) b
    (loop (λ k c, keep_if (0 <? c - count_of b k) (c - count_of b k)) a []).

Definition or_items (a b : list (K * Z)) : list (K * Z) :=
  loop (λ k c, keep_if (negb (dict_contains a k) && (0 <? c)) c) b
    (loop (λ k c,
       let n := if c <? count_of b k then count_of b k else c in
       keep_if (0 <? n) n) a []).

Definition and_items (a b : list (K * Z)) : list (K * Z) :=
  loop (λ k c,
    let n := if c <? count_of b k then c else count_of b k in
    keep_if (0 <? n) n) a [].

Definition xor_items (a b : list (K * Z)) : list (K * Z) :=
  sub_items (or_items a b) (and_items a b).

Definition pos_items (a : list (K * Z)) : list (K * Z) :=
  loop (λ k c, keep_if (0 <? c) c) a [].

Definition neg_items (a : list (K * Z)) : list (K * Z) :=
  loop (λ k c, keep_if (c <? 0) (0 - c)) a [].

Definition mutate_items (d : list (K * Z)) (m : mutation) : list (K * Z) :=
  match m with
  | Increment k delta => dict_set k (count_of d k + delta) d
  | SetCount k n => dict_set k n d
  | Delete k => dict_del k d
  end.

(** ** The operations as the specification words them *)

(** Each key of [ks] that satisfies [P], in the order of [ks], with the
    count [cnt] gives it. *)
Definition entries (ks : list K) (P : K → Prop) `{∀ k, Decision (P k)}
    (cnt : K → Z) : list (K * Z) :=
  (λ k, (k, cnt k)) <$> filter P ks.

Definition Add_spec (a b : list (K * Z)) : list (K * Z) :=
  entries (keys a) (λ k, 0 < count_of a k + count_of b k)
          (λ k, count_of a k + count_of b k)
  ++ entries (keys b) (λ k, (k ∉ keys a) ∧ 0 < count_of b k) (count_of b).

Definition Subtract_spec (a b : list (K * Z)) : list (K * Z) :=
  entries (keys a) (λ k, 0 < count_of a k - count_of b k)
          (λ k, count_of a k - count_of b k)
  ++ entries (keys b) (λ k, (k ∉ keys a) ∧ count_of b k < 0)
             (λ k, - count_of b k).

Definition Union_spec (a b : list (K * Z)) : list (K * Z) :=
  entries (keys a) (λ k, 0 < Z.max (count_of a k) (count_of b k))
          (λ k, Z.max (count_of a k) (count_of b k))
  ++ entries (keys b) (λ k, (k ∉ keys a) ∧ 0 < count_of b k) (count_of b).

Definition Intersect_spec (a b : list (K * Z)) : list (K * Z) :=
  entries (keys a) (λ k, 0 < Z.min (count_of a k) (count_of b k))
          (λ k, Z.min (count_of a k) (count_of b k)).

Definition Positive_spec (a : list (K * Z)) : list (K * Z) :=
  filter (λ kc, 0 < kc.2) a.

(** The entries with a negative count, in order, with the sign flipped. *)
Definition Negate_spec (a : list (K * Z)) : list (K * Z) :=
  (λ kc, (kc.1, - kc.2)) <$> filter (λ kc, kc.2 < 0) a.

Definition binop_items (op : binop) (a b : list (K * Z)) : list (K * Z) :=
  match op with
  | Add => add_items a b
  | Subtract => sub_items a b
  | Union => or_items a b
  | Intersect => and_items a b
  | SymmetricDifference => xor_items a b
  end.

Definition binop_spec (op : binop) (a b : list (K * Z)) : list (K * Z) :=
  match op with
  | Add => Add_spec a b
  | Subtract => Subtract_spec a b
  | Union => Union_spec a b
  | Intersect => Intersect_spec a b
  | SymmetricDifference =>
      Subtract_spec (Union_spec a b) (Intersect_spec a b)
  end.

(** The count a result gives a key whose counts in the operands are [x]
    and [y] (0 for a key an operand does not have). *)
Definition binop_count (op : binop) (x y : Z) : Z :=
  match op with
  | Add => Z.max 0 (x + y)
  | Subtract => Z.max 0 (x - y)
  | Union => Z.max 0 (Z.max x y)
  | Intersect => Z.max 0 (Z.min x y)
  | SymmetricDifference =>
      Z.max 0 (Z.max 0 (Z.max x y) - Z.max 0 (Z.min x y))
  end.

(** How often [k] occurs in [elems]. *)
Definition occurrences (elems : list K) (k : K) : Z :=
  Z.of_nat (length (filter (λ x, x = k) elems)).

(** [+(m)] and [-(m)]: a unary operation on what [m] returns. *)
Definition then_unary (u : unop) (m : M value) : M value :=
  v <- m ;;
  l <- as_ref v ;;
  unop_method u l.

(** [(a | b) + (a & b)] *)
Definition or_plus_and (a : loc) (b : value) : M value :=
  u <- __or__ a b ;;
  i <- __and__ a b ;;
  binary_add u i.

(** [(a - b) + b] *)
Definition sub_plus (a : loc) (b : value) : M value :=
  d <- __sub__ a b ;;
  binary_add d b.

(** Order of first sight: every key once, at its first occurrence. *)
Fixpoint first_seen (ks : list K) : list K :=
  match ks with
  | [] => []
  | k :: ks' => k :: filter (λ k', k' ≠ k) (first_seen ks')
  end.

(** What a mutation does to a key: it writes it or removes it. *)
Inductive event := Seen (k : K) | Gone (k : K).

#[global] Instance event_eq_dec : EqDecision event.
Proof. solve_decision. Defined.

Definition event_of (m : mutation) : event :=
  match m with
  | Increment k _ | SetCount k _ => Seen k
  | Delete k => Gone k
  end.

(** The keys written, in order, removals ignored. *)
Definition written (evs : list event) : list K :=
  omap (λ e, match e with Seen k => Some k | Gone _ => None end) evs.

(** The keys written and not removed afterwards, in order. *)
Fixpoint since_deletion (evs : list event) : list K :=
  match evs with
  | [] => []
  | Seen k :: evs' =>
      if decide (Gone k ∈ evs') then since_deletion evs'
      else k :: since_deletion evs'
  | Gone _ :: evs' => since_deletion evs'
  end.

(** The keys a constructor argument shows, in order. *)
Definition source_keys (h : heap) (src : source) : option (list K) :=
  match src with
  | SrcNone => Some []
  | SrcIter elems => Some elems
  | SrcMapping m => (λ o, keys (ob_items o)) <$> h !! m
  end.

(** A counter is built from [src], mutated by [ms], and then iterated. *)
Definition life (src : source) (ms : list mutation) : M (list K) :=
  c <- OrderedCounter src ;;
  for_each ms (mutate c) ;;
  order c.

(** [v] is an instance of [Counter]: it supports [v[key]] with a count of
    0 for a missing key. *)
Definition is_counter (h : heap) (v : value) : bool :=
  match v with
  | VRef l =>
      match h !! l with
      | Some o => issubclass (ob_class o) CCounter
      | None => false
      end
  | _ => false
  end.

(** [m] returns a reference to an object that [h] does not have, and
    leaves every object of [h] as it is. *)
Definition returns_fresh (m : M value) (h : heap) : Prop :=
  ∃ r h', m h = Some (VRef r, h')
          ∧ h !! r = None ∧ is_Some (h' !! r) ∧ preserves h h'.

(** References point into the store. *)
Definition valid (h : heap) (v : value) : Prop :=
  match v with VRef l => is_Some (h !! l) | _ => True end.

End Keys.

Notation "x <- c1 ;; c2" := (bind c1 (λ x, c2))
  (at level 100, c1 at next level, right associativity).
Notation "c1 ;; c2" := (bind c1 (λ _, c2))
  (at level 100, right associativity).

(** ** Counters of characters *)

(** Iterating over a string yields its characters. *)
Definition chars (s : string) : source (K:=ascii) :=
  SrcIter (list_ascii_of_string s).

(** [op(OrderedCounter(s1), OrderedCounter(s2))], from an empty store. *)
Definition on_strings (op : loc → value → M (K:=ascii) value) (s1 s2 : string)
    : option (list (ascii * Z)) :=
  result_items
    (a <- OrderedCounter (chars s1) ;;
     b <- OrderedCounter (chars s2) ;;
     op a (VRef b)) [].

(** * Proofs *)

Section Facts.

Context {K : Type} `{EqDecision K}.

Implicit Types (h : list (object (K:=K))) (a b d acc : list (K * Z)).

(** ** Running a computation step by step *)

Lemma bind_run {A B} (m : M A) (f : A → M B) h x h' :
  m h = Some (x, h') → (x <- m ;; f x) h = f x h'.
Proof. intros Hm. unfold bind. by rewrite Hm. Qed.

Lemma load_run h l o : h !! l = Some o → load l h = Some (o, h).
Proof. intros Hl. unfold load. by rewrite Hl. Qed.

Lemma class_of_run h l o :
  h !! l = Some o → class_of l h = Some (ob_class o, h).
Proof. intros Hl. unfold class_of. by rewrite (bind_run _ _ _ _ _ (load_run _ _ _ Hl)). Qed.

Lemma items_run h l o :
  h !! l = Some o → items l h = Some (ob_items o, h).
Proof. intros Hl. unfold items. by rewrite (bind_run _ _ _ _ _ (load_run _ _ _ Hl)). Qed.

Lemma getitem_run h l o k :
  h !! l = Some o → getitem l k h = Some (count_of (ob_items o) k, h).
Proof. intros Hl. unfold getitem. by rewrite (bind_run _ _ _ _ _ (load_run _ _ _ Hl)). Qed.

Lemma contains_run h l o k :
  h !! l = Some o → contains l k h = Some (dict_contains (ob_items o) k, h).
Proof. intros Hl. unfold contains. by rewrite (bind_run _ _ _ _ _ (load_run _ _ _ Hl)). Qed.

Lemma isinstance_run h l o cls :
  h !! l = Some o →
  isinstance (VRef l) cls h = Some (issubclass (ob_class o) cls, h).
Proof.
  intros Hl. unfold isinstance.
  by rewrite (bind_run _ _ _ _ _ (class_of_run _ _ _ Hl)).
Qed.

(** The object allocated last sits behind the store [h] it was allocated
    in; writes to it leave [h] alone. *)
Lemma lookup_old h l o x : h !! l = Some o → (h ++ [x]) !! l = Some o.
Proof. intros Hl. by apply lookup_app_l_Some. Qed.

Lemma lookup_last h x : (h ++ [x]) !! length h = Some x.
Proof. by rewrite list_lookup_middle. Qed.

Lemma setitem_last h cls acc k v :
  setitem (length h) k v (h ++ [Obj cls acc])
  = Some (tt, h ++ [Obj cls (dict_set k v acc)]).
Proof.
  unfold setitem.
  rewrite (bind_run _ _ _ _ _ (load_run _ _ _ (lookup_last _ _))).
  unfold store. rewrite lookup_last. cbn [ob_class ob_items].
  f_equal. f_equal.
  rewrite insert_app_r_alt by lia. by rewrite Nat.sub_diag.
Qed.

Lemma dict_del_absent d k : k ∉ keys d → dict_del k d = d.
Proof.
  induction d as [|[k' v'] d IH]; [done|]. cbn.
  rewrite not_elem_of_cons. intros [Hne Hni].
  rewrite decide_False by done. by rewrite IH.
Qed.

Lemma delitem_last h cls acc k :
  delitem (length h) k (h ++ [Obj cls acc])
  = Some (tt, h ++ [Obj cls (dict_del k acc)]).
Proof.
  unfold delitem.
  rewrite (bind_run _ _ _ _ _ (load_run _ _ _ (lookup_last _ _))).
  cbn [ob_class ob_items].
  destruct (dict_contains acc k) eqn:Hc.
  - unfold store. rewrite lookup_last. f_equal. f_equal.
    rewrite insert_app_r_alt by lia. by rewrite Nat.sub_diag.
  - apply bool_decide_eq_false in Hc. by rewrite dict_del_absent.
Qed.

Lemma new_run h cls : new cls h = Some (length h, h ++ [Obj cls []]).
Proof. done. Qed.

(** A loop whose body conditionally stores into the object allocated last
    computes [loop] on that object's items. *)
Lemma for_each_last h cls (f : K → Z → option Z) (body : K * Z → M unit) its :
  (∀ kc acc, body kc (h ++ [Obj cls acc])
             = Some (tt, h ++ [Obj cls (put_if f acc kc)])) →
  ∀ acc, for_each its body (h ++ [Obj cls acc])
         = Some (tt, h ++ [Obj cls (loop f its acc)]).
Proof.
  intros Hbody. induction its as [|kc its IH]; intros acc; [done|].
  cbn [for_each]. rewrite (bind_run _ _ _ _ _ (Hbody kc acc)).
  by rewrite IH.
Qed.

Lemma store_if_last h cls acc k (c : bool) v :
  (if c then setitem (length h) k v else ret tt) (h ++ [Obj cls acc])
  = Some (tt, h ++ [Obj cls (match keep_if c v with
                              | Some v' => dict_set k v' acc
                              | None => acc end)]).
Proof. destruct c; cbn [keep_if]; [apply setitem_last | done]. Qed.

(** ** What each method computes

    Every method allocates [result] behind the objects already there and
    stores into nothing else. *)

Ltac run_step lem :=
  erewrite bind_run by (apply lem; eauto using lookup_old).

Ltac run_loop f :=
  erewrite bind_run by
    (apply (for_each_last _ _ f); intros [??] ?; unfold put_if; cbn [fst snd];
     first [ run_step getitem_run | run_step contains_run | idtac ];
     cbn [ob_items]; apply store_if_last).

Lemma add_run h self other cs a co b :
  h !! self = Some (Obj cs a) → h !! other = Some (Obj co b) →
  issubclass co CCounter = true →
  __add__ self (VRef other) h
  = Some (VRef (length h), h ++ [Obj cs (add_items a b)]).
Proof.
  intros Hs Ho Hc. unfold __add__.
  run_step isinstance_run. cbn [ob_class]. rewrite Hc. cbn [negb as_ref].
  erewrite bind_run by done.
  run_step class_of_run. run_step new_run. run_step items_run.
  cbn [ob_class ob_items].
  run_loop (λ k c, keep_if (0 <? c + count_of b k) (c + count_of b k)).
  run_step items_run. cbn [ob_items].
  run_loop (λ k c, keep_if (negb (dict_contains a k) && (0 <? c)) c).
  done.
Qed.

Lemma sub_run h self other cs a co b :
  h !! self = Some (Obj cs a) → h !! other = Some (Obj co b) →
  issubclass co CCounter = true →
  __sub__ self (VRef other) h
  = Some (VRef (length h), h ++ [Obj cs (sub_items a b)]).
Proof.
  intros Hs Ho Hc. unfold __sub__.
  run_step isinstance_run. cbn [ob_class]. rewrite Hc. cbn [negb as_ref].
  erewrite bind_run by done.
  run_step class_of_run. run_step new_run. run_step items_run.
  cbn [ob_class ob_items].
  run_loop (λ k c, keep_if (0 <? c - count_of b k) (c - count_of b k)).
  run_step items_run. cbn [ob_items].
  run_loop (λ k c, keep_if (negb (dict_contains a k) && (c <? 0)) (0 - c)).
  done.
Qed.

Lemma or_run h self other cs a co b :
  h !! self = Some (Obj cs a) → h !! other = Some (Obj co b) →
  issubclass co CCounter = true →
  __or__ self (VRef other) h
  = Some (VRef (length h), h ++ [Obj cs (or_items a b)]).
Proof.
  intros Hs Ho Hc. unfold __or__.
  run_step isinstance_run. cbn [ob_class]. rewrite Hc. cbn [negb as_ref].
  erewrite bind_run by done.
  run_step class_of_run. run_step new_run. run_step items_run.
  cbn [ob_class ob_items].
  run_loop (λ k c,
    let n := if c <? count_of b k then count_of b k else c in
    keep_if (0 <? n) n).
  run_step items_run. cbn [ob_items].
  run_loop (λ k c, keep_if (negb (dict_contains a k) && (0 <? c)) c).
  done.
Qed.

Lemma and_run h self other cs a co b :
  h !! self = Some (Obj cs a) → h !! other = Some (Obj co b) →
  issubclass co CCounter = true →
  __and__ self (VRef other) h
  = Some (VRef (length h), h ++ [Obj cs (and_items a b)]).
Proof.
  intros Hs Ho Hc. unfold __and__.
  run_step isinstance_run. cbn [ob_class]. rewrite Hc. cbn [negb as_ref].
  erewrite bind_run by done.
  run_step class_of_run. run_step new_run. run_step items_run.
  cbn [ob_class ob_items].
  run_loop (λ k c,
    let n := if c <? count_of b k then c else count_of b k in
    keep_if (0 <? n) n).
  done.
Qed.

Lemma pos_run h self cs a :
  h !! self = Some (Obj cs a) →
  __pos__ self h = Some (VRef (length h), h ++ [Obj cs (pos_items a)]).
Proof.
  intros Hs. unfold __pos__.
  run_step class_of_run. run_step new_run. run_step items_run.
  cbn [ob_class ob_items].
  run_loop (λ (k : K) c, keep_if (0 <? c) c).
  done.
Qed.

Lemma neg_run h self cs a :
  h !! self = Some (Obj cs a) →
  __neg__ self h = Some (VRef (length h), h ++ [Obj cs (neg_items a)]).
Proof.
  intros Hs. unfold __neg__.
  run_step class_of_run. run_step new_run. run_step items_run.
  cbn [ob_class ob_items].
  run_loop (λ (k : K) c, keep_if (c <? 0) (0 - c)).
  done.
Qed.

Lemma binary_sub_run h x y a b :
  h !! x = Some (Obj COrderedCounter a) →
  h !! y = Some (Obj COrderedCounter b) →
  binary_sub (VRef x) (VRef y) h
  = Some (VRef (length h), h ++ [Obj COrderedCounter (sub_items a b)]).
Proof.
  intros Hx Hy. unfold binary_sub. cbn [as_ref].
  erewrite bind_run by done.
  run_step class_of_run. cbn [ob_class].
  by erewrite bind_run by (by eapply sub_run).
Qed.

Lemma binary_add_run h x y a b :
  h !! x = Some (Obj COrderedCounter a) →
  h !! y = Some (Obj COrderedCounter b) →
  binary_add (VRef x) (VRef y) h
  = Some (VRef (length h), h ++ [Obj COrderedCounter (add_items a b)]).
Proof.
  intros Hx Hy. unfold binary_add. cbn [as_ref].
  erewrite bind_run by done.
  run_step class_of_run. cbn [ob_class].
  by erewrite bind_run by (by eapply add_run).
Qed.

Lemma xor_run h self other a co b :
  h !! self = Some (Obj COrderedCounter a) → h !! other = Some (Obj co b) →
  issubclass co CCounter = true →
  __xor__ self (VRef other) h
  = Some (VRef (S (S (length h))),
          h ++ [Obj COrderedCounter (or_items a b);
                Obj COrderedCounter (and_items a b);
                Obj COrderedCounter (xor_items a b)]).
Proof.
  intros Hs Ho Hc. unfold __xor__.
  run_step isinstance_run. cbn [ob_class]. rewrite Hc. cbn [negb].
  erewrite bind_run by (by eapply or_run).
  erewrite bind_run by (eapply and_run; eauto using lookup_old).
  erewrite binary_sub_run.
  - rewrite !length_app. cbn [length]. rewrite <-!app_assoc. cbn [app].
    do 3 f_equal. lia.
  - apply lookup_old, lookup_last.
  - apply lookup_last.
Qed.

(** ** Dictionaries as item lists *)

Lemma dict_set_fresh d k v : k ∉ keys d → dict_set k v d = d ++ [(k, v)].
Proof.
  induction d as [|[k' v'] d IH]; [done|]. cbn.
  rewrite not_elem_of_cons. intros [Hne Hni].
  rewrite decide_False by done. by rewrite IH.
Qed.

Lemma keys_dict_set_present d k v : k ∈ keys d → keys (dict_set k v d) = keys d.
Proof.
  induction d as [|[k' v'] d IH]; cbn.
  - by intros ?%elem_of_nil.
  - intros Hin. destruct (decide (k = k')) as [->|Hne]; [done|].
    cbn. f_equal. apply IH. by apply elem_of_cons in Hin as [?|?].
Qed.

Lemma keys_dict_set d k v :
  keys (dict_set k v d) = if decide (k ∈ keys d) then keys d else keys d ++ [k].
Proof.
  destruct (decide (k ∈ keys d)) as [Hin|Hni].
  - by apply keys_dict_set_present.
  - rewrite dict_set_fresh by done. unfold keys. by rewrite fmap_app.
Qed.

Lemma keys_dict_del d k : keys (dict_del k d) = filter (λ k', k' ≠ k) (keys d).
Proof.
  induction d as [|[k' v'] d IH]; [done|]. cbn.
  fold (keys d). destruct (decide (k = k')) as [->|Hne].
  - by rewrite decide_False by naive_solver.
  - rewrite decide_True by naive_solver. cbn. by f_equal.
Qed.

Lemma dict_get_elem d k v : dict_get d k = Some v → (k, v) ∈ d.
Proof.
  induction d as [|[k' v'] d IH]; [done|]. cbn.
  destruct (decide (k = k')) as [->|Hne].
  - intros [= ->]. left.
  - intros Hg. right. by apply IH.
Qed.

Lemma dict_get_None d k : dict_get d k = None ↔ k ∉ keys d.
Proof.
  induction d as [|[k' v'] d IH]; cbn.
  - split; [intros _; apply not_elem_of_nil | done].
  - rewrite not_elem_of_cons. destruct (decide (k = k')) as [->|Hne].
    + split; [done | by intros [? _]].
    + rewrite IH. tauto.
Qed.

Lemma elem_dict_get d k v : NoDup (keys d) → (k, v) ∈ d → dict_get d k = Some v.
Proof.
  induction d as [|[k' v'] d IH]; cbn.
  - by intros _ ?%elem_of_nil.
  - intros [Hni Hnd]%NoDup_cons [[= -> ->]|Hin]%elem_of_cons.
    + by rewrite decide_True.
    + rewrite decide_False; [by apply IH|].
      intros ->. apply Hni. unfold keys. apply list_elem_of_fmap.
      by exists (k', v).
Qed.

Lemma elem_count_of d k v : NoDup (keys d) → (k, v) ∈ d → count_of d k = v.
Proof. intros Hnd Hin. unfold count_of. by rewrite (elem_dict_get d k v). Qed.

Lemma count_of_absent d k : k ∉ keys d → count_of d k = 0.
Proof. intros Hni%dict_get_None. unfold count_of. by rewrite Hni. Qed.

Lemma count_of_app d1 d2 k :
  count_of (d1 ++ d2) k
  = if decide (k ∈ keys d1) then count_of d1 k else count_of d2 k.
Proof.
  unfold count_of. induction d1 as [|[k' v'] d1 IH]; cbn.
  - rewrite decide_False; [done | apply not_elem_of_nil].
  - destruct (decide (k = k')) as [->|Hne].
    + rewrite decide_True; [done | left].
    + rewrite IH. destruct (decide (k ∈ keys d1)).
      * rewrite decide_True; [done | by right].
      * rewrite decide_False; [done|]. rewrite not_elem_of_cons. done.
Qed.

Lemma dict_contains_true d k : dict_contains d k = true ↔ k ∈ keys d.
Proof. unfold dict_contains. apply bool_decide_eq_true. Qed.

Lemma dict_contains_false d k : dict_contains d k = false ↔ k ∉ keys d.
Proof. unfold dict_contains. apply bool_decide_eq_false. Qed.

(** A loop over distinct keys that never stores a key already present
    appends, in order, what it stores. *)
Lemma loop_fresh (f : K → Z → option Z) its acc :
  NoDup (keys its) →
  (∀ k c, (k, c) ∈ its → is_Some (f k c) → k ∉ keys acc) →
  loop f its acc = acc ++ omap (λ kc, pair kc.1 <$> f kc.1 kc.2) its.
Proof.
  set (g := λ kc : K * Z, pair kc.1 <$> f kc.1 kc.2).
  revert acc. induction its as [|[k c] its IH]; intros acc Hnd Hfresh.
  - cbn. by rewrite app_nil_r.
  - change (keys ((k, c) :: its)) with (k :: keys its) in Hnd.
    apply NoDup_cons in Hnd as [Hk Hnd].
    change (loop f ((k, c) :: its) acc) with (loop f its (put_if f acc (k, c))).
    change (omap g ((k, c) :: its))
      with (match g (k, c) with Some y => y :: omap g its | None => omap g its end).
    unfold put_if, g at 1. cbn [fst snd].
    destruct (f k c) as [v|] eqn:Hf; cbn [fmap option_fmap option_map].
    + rewrite dict_set_fresh by (apply (Hfresh k c); [left | by rewrite Hf]).
      rewrite IH; [by rewrite <-app_assoc | done |].
      intros k' c' Hin Hsome. unfold keys. rewrite fmap_app.
      rewrite not_elem_of_app. split; [apply (Hfresh k' c'); [by right | done]|].
      cbn. rewrite list_elem_of_singleton. intros ->. apply Hk.
      unfold keys. apply list_elem_of_fmap. by exists (k, c').
    + apply IH; [done|]. intros k' c' Hin. apply Hfresh. by right.
Qed.

(** ** Entries *)

Section Entries.

Context (P : K → Prop) `{∀ k, Decision (P k)} (cnt : K → Z).

Lemma keys_entries ks : keys (entries ks P cnt) = filter P ks.
Proof.
  unfold keys, entries. rewrite <-list_fmap_compose.
  induction (filter P ks) as [|k l IH]; [done|]. cbn. by f_equal.
Qed.

Lemma elem_of_keys_entries ks k : k ∈ keys (entries ks P cnt) ↔ k ∈ ks ∧ P k.
Proof. rewrite keys_entries, list_elem_of_filter. tauto. Qed.

Lemma elem_of_entries ks k v :
  (k, v) ∈ entries ks P cnt ↔ k ∈ ks ∧ P k ∧ v = cnt k.
Proof.
  unfold entries. rewrite list_elem_of_fmap. split.
  - intros (k' & [= -> ->] & Hin%list_elem_of_filter). tauto.
  - intros (Hin & HP & ->). exists k. split; [done|].
    apply list_elem_of_filter. done.
Qed.

Lemma count_of_entries ks k :
  count_of (entries ks P cnt) k = if decide (k ∈ ks ∧ P k) then cnt k else 0.
Proof.
  destruct (decide (k ∈ ks ∧ P k)) as [Hin|Hni].
  - apply elem_of_keys_entries in Hin. unfold count_of.
    destruct (dict_get _ k) as [v|] eqn:Hg.
    + apply dict_get_elem, elem_of_entries in Hg. by destruct Hg as (_ & _ & ->).
    + by apply dict_get_None in Hg.
  - apply count_of_absent. by rewrite elem_of_keys_entries.
Qed.

Lemma NoDup_keys_entries ks : NoDup ks → NoDup (keys (entries ks P cnt)).
Proof. rewrite keys_entries. apply NoDup_filter. Qed.

(** When the stored count is a function of the key, the result reads as
    [entries]. *)
Lemma omap_entries (f : K → Z → option Z) its :
  (∀ k c, (k, c) ∈ its → f k c = if decide (P k) then Some (cnt k) else None) →
  omap (λ kc, pair kc.1 <$> f kc.1 kc.2) its = entries (keys its) P cnt.
Proof.
  set (g := λ kc : K * Z, pair kc.1 <$> f kc.1 kc.2).
  unfold entries. induction its as [|[k c] its IH]; intros Hf; [done|].
  change (omap g ((k, c) :: its))
    with (match g (k, c) with Some y => y :: omap g its | None => omap g its end).
  change (keys ((k, c) :: its)) with (k :: keys its).
  unfold g at 1. cbn [fst snd]. rewrite (Hf k c) by left.
  rewrite IH by (intros ???; apply Hf; by right).
  destruct (decide (P k)).
  - by rewrite filter_cons_True.
  - by rewrite filter_cons_False.
Qed.

End Entries.

(** ** The loops compute what the specification words *)

Lemma keep_if_decide (c : bool) (P : Prop) `{Decision P} v w :
  (c = true ↔ P) → v = w →
  keep_if c v = if decide P then Some w else None.
Proof.
  intros Hc ->. destruct c; cbn.
  - by rewrite decide_True by (by apply Hc).
  - rewrite decide_False; [done|]. intros HP. by apply Hc in HP.
Qed.

Lemma one_loop (f1 : K → Z → option Z)
    (P1 : K → Prop) `{∀ k, Decision (P1 k)} cnt1 a :
  NoDup (keys a) →
  (∀ k c, (k, c) ∈ a → f1 k c = if decide (P1 k) then Some (cnt1 k) else None) →
  loop f1 a [] = entries (keys a) P1 cnt1.
Proof.
  intros Ha H1. rewrite loop_fresh; [|done|].
  - cbn [app]. by apply omap_entries.
  - intros. apply not_elem_of_nil.
Qed.

Lemma two_loops (f1 f2 : K → Z → option Z)
    (P1 P2 : K → Prop) `{∀ k, Decision (P1 k)} `{∀ k, Decision (P2 k)}
    cnt1 cnt2 a b :
  NoDup (keys a) → NoDup (keys b) →
  (∀ k c, (k, c) ∈ a → f1 k c = if decide (P1 k) then Some (cnt1 k) else None) →
  (∀ k c, (k, c) ∈ b →
     f2 k c = if decide ((k ∉ keys a) ∧ P2 k) then Some (cnt2 k) else None) →
  loop f2 b (loop f1 a [])
  = entries (keys a) P1 cnt1 ++ entries (keys b) (λ k, (k ∉ keys a) ∧ P2 k) cnt2.
Proof.
  intros Ha Hb H1 H2. rewrite (one_loop f1 P1 cnt1) by done.
  rewrite loop_fresh; [|done|].
  - f_equal. by apply omap_entries.
  - intros k c Hin Hsome. rewrite (H2 k c Hin) in Hsome.
    rewrite elem_of_keys_entries. intros [Hka _].
    destruct (decide ((k ∉ keys a) ∧ P2 k)) as [[Hni _]|_]; [done|].
    by destruct Hsome.
Qed.

Lemma unseen_and (c : bool) (P : Prop) a k :
  (c = true ↔ P) →
  negb (dict_contains a k) && c = true ↔ (k ∉ keys a) ∧ P.
Proof.
  intros Hc. rewrite andb_true_iff, negb_true_iff, dict_contains_false. tauto.
Qed.

Lemma add_items_spec a b :
  NoDup (keys a) → NoDup (keys b) → add_items a b = Add_spec a b.
Proof.
  intros Ha Hb. unfold add_items, Add_spec. apply two_loops; [done..| |].
  - intros k c Hin. rewrite (elem_count_of a k c) by done.
    apply keep_if_decide; [apply Z.ltb_lt | done].
  - intros k c Hin. rewrite (elem_count_of b k c) by done.
    apply keep_if_decide; [apply unseen_and, Z.ltb_lt | done].
Qed.

Lemma sub_items_spec a b :
  NoDup (keys a) → NoDup (keys b) → sub_items a b = Subtract_spec a b.
Proof.
  intros Ha Hb. unfold sub_items, Subtract_spec. apply two_loops; [done..| |].
  - intros k c Hin. rewrite (elem_count_of a k c) by done.
    apply keep_if_decide; [apply Z.ltb_lt | done].
  - intros k c Hin. rewrite (elem_count_of b k c) by done.
    apply keep_if_decide; [apply unseen_and, Z.ltb_lt | lia].
Qed.

Lemma max_by_test (c o : Z) : (if c <? o then o else c) = Z.max c o.
Proof. destruct (Z.ltb_spec c o); lia. Qed.

Lemma min_by_test (c o : Z) : (if c <? o then c else o) = Z.min c o.
Proof. destruct (Z.ltb_spec c o); lia. Qed.

Lemma or_items_spec a b :
  NoDup (keys a) → NoDup (keys b) → or_items a b = Union_spec a b.
Proof.
  intros Ha Hb. unfold or_items, Union_spec. apply two_loops; [done..| |].
  - intros k c Hin. rewrite (elem_count_of a k c) by done. cbv zeta.
    rewrite max_by_test. apply keep_if_decide; [apply Z.ltb_lt | done].
  - intros k c Hin. rewrite (elem_count_of b k c) by done.
    apply keep_if_decide; [apply unseen_and, Z.ltb_lt | done].
Qed.

Lemma and_items_spec a b :
  NoDup (keys a) → and_items a b = Intersect_spec a b.
Proof.
  intros Ha. unfold and_items, Intersect_spec. apply one_loop; [done|].
  intros k c Hin. rewrite (elem_count_of a k c) by done. cbv zeta.
  rewrite min_by_test. apply keep_if_decide; [apply Z.ltb_lt | done].
Qed.

Lemma pos_items_spec a : NoDup (keys a) → pos_items a = Positive_spec a.
Proof.
  intros Ha. unfold pos_items, Positive_spec. rewrite loop_fresh; [|done|].
  - cbn [app]. clear Ha.
    set (g := λ kc : K * Z, pair kc.1 <$> keep_if (0 <? kc.2) kc.2).
    induction a as [|[k c] a IH]; [done|].
    change (omap g ((k, c) :: a))
      with (match g (k, c) with Some y => y :: omap g a | None => omap g a end).
    unfold g at 1. cbn [fst snd]. rewrite IH.
    destruct (Z.ltb_spec 0 c); cbn [keep_if fmap option_fmap option_map].
    + by rewrite filter_cons_True.
    + rewrite filter_cons_False; [done | cbn; lia].
  - intros. apply not_elem_of_nil.
Qed.

(** ** What each operation returns *)

Lemma result_items_last (m : M value) h x :
  m h = Some (VRef (length h), h ++ [x]) → result_items m h = Some (ob_items x).
Proof. intros Hm. unfold result_items. by rewrite Hm, lookup_last. Qed.

Lemma add_result h self other cs co a b :
  dict_at h self cs a → dict_at h other co b →
  issubclass co CCounter = true →
  result_items (__add__ self (VRef other)) h = Some (Add_spec a b).
Proof.
  intros [Hs Ha] [Ho Hb] Hc.
  rewrite (result_items_last _ _ _ (add_run _ _ _ _ _ _ _ Hs Ho Hc)).
  cbn [ob_items]. by rewrite add_items_spec.
Qed.

Lemma sub_result h self other cs co a b :
  dict_at h self cs a → dict_at h other co b →
  issubclass co CCounter = true →
  result_items (__sub__ self (VRef other)) h = Some (Subtract_spec a b).
Proof.
  intros [Hs Ha] [Ho Hb] Hc.
  rewrite (result_items_last _ _ _ (sub_run _ _ _ _ _ _ _ Hs Ho Hc)).
  cbn [ob_items]. by rewrite sub_items_spec.
Qed.

Lemma or_result h self other cs co a b :
  dict_at h self cs a → dict_at h other co b →
  issubclass co CCounter = true →
  result_items (__or__ self (VRef other)) h = Some (Union_spec a b).
Proof.
  intros [Hs Ha] [Ho Hb] Hc.
  rewrite (result_items_last _ _ _ (or_run _ _ _ _ _ _ _ Hs Ho Hc)).
  cbn [ob_items]. by rewrite or_items_spec.
Qed.

Lemma and_result h self other cs co a b :
  dict_at h self cs a → dict_at h other co b →
  issubclass co CCounter = true →
  result_items (__and__ self (VRef other)) h = Some (Intersect_spec a b).
Proof.
  intros [Hs Ha] [Ho Hb] Hc.
  rewrite (result_items_last _ _ _ (and_run _ _ _ _ _ _ _ Hs Ho Hc)).
  cbn [ob_items]. by rewrite and_items_spec.
Qed.

Lemma pos_result h self cs a :
  dict_at h self cs a →
  result_items (__pos__ self) h = Some (Positive_spec a).
Proof.
  intros [Hs Ha].
  rewrite (result_items_last _ _ _ (pos_run _ _ _ _ Hs)).
  cbn [ob_items]. by rewrite pos_items_spec.
Qed.

(** ** Keys stay distinct *)

Lemma NoDup_keys_two (ks1 ks2 : list K)
    (P1 P2 : K → Prop) `{∀ k, Decision (P1 k)} `{∀ k, Decision (P2 k)}
    (cnt1 cnt2 : K → Z) :
  NoDup ks1 → NoDup ks2 →
  NoDup (keys (entries ks1 P1 cnt1
               ++ entries ks2 (λ k, (k ∉ ks1) ∧ P2 k) cnt2)).
Proof.
  intros H1 H2. unfold keys. rewrite fmap_app. apply NoDup_app.
  split; [by apply NoDup_keys_entries|].
  split; [|by apply NoDup_keys_entries].
  intros k [Hin _]%elem_of_keys_entries [_ [Hni _]]%elem_of_keys_entries.
  done.
Qed.

Lemma NoDup_Add_spec a b :
  NoDup (keys a) → NoDup (keys b) → NoDup (keys (Add_spec a b)).
Proof. apply NoDup_keys_two. Qed.

Lemma NoDup_Subtract_spec a b :
  NoDup (keys a) → NoDup (keys b) → NoDup (keys (Subtract_spec a b)).
Proof. apply NoDup_keys_two. Qed.

Lemma NoDup_Union_spec a b :
  NoDup (keys a) → NoDup (keys b) → NoDup (keys (Union_spec a b)).
Proof. apply NoDup_keys_two. Qed.

Lemma NoDup_Intersect_spec a b :
  NoDup (keys a) → NoDup (keys (Intersect_spec a b)).
Proof. apply NoDup_keys_entries. Qed.

Lemma xor_items_spec a b :
  NoDup (keys a) → NoDup (keys b) →
  xor_items a b = Subtract_spec (Union_spec a b) (Intersect_spec a b).
Proof.
  intros Ha Hb. unfold xor_items.
  rewrite or_items_spec, and_items_spec by done.
  apply sub_items_spec; [by apply NoDup_Union_spec | by apply NoDup_Intersect_spec].
Qed.

Lemma xor_result h self other co a b :
  dict_at h self COrderedCounter a → dict_at h other co b →
  issubclass co CCounter = true →
  result_items (__xor__ self (VRef other)) h
  = Some (Subtract_spec (Union_spec a b) (Intersect_spec a b)).
Proof.
  intros [Hs Ha] [Ho Hb] Hc. unfold result_items.
  rewrite (xor_run _ _ _ _ _ _ Hs Ho Hc).
  replace (S (S (length h))) with (length h + 2)%nat by lia.
  rewrite lookup_app_r by lia.
  replace (length h + 2 - length h)%nat with 2%nat by lia.
  cbn. by rewrite xor_items_spec.
Qed.

Lemma binary_sub_result h x y a b :
  h !! x = Some (Obj COrderedCounter a) →
  h !! y = Some (Obj COrderedCounter b) →
  result_items (binary_sub (VRef x) (VRef y)) h = Some (sub_items a b).
Proof.
  intros Hx Hy. by rewrite (result_items_last _ _ _ (binary_sub_run _ _ _ _ _ Hx Hy)).
Qed.

Lemma binary_add_result h x y a b :
  h !! x = Some (Obj COrderedCounter a) →
  h !! y = Some (Obj COrderedCounter b) →
  result_items (binary_add (VRef x) (VRef y)) h = Some (add_items a b).
Proof.
  intros Hx Hy. by rewrite (result_items_last _ _ _ (binary_add_run _ _ _ _ _ Hx Hy)).
Qed.

(** ** The type guard *)

Lemma not_counter_isinstance h (v : value) :
  valid h v → is_counter h v = false →
  isinstance (K:=K) v CCounter h = Some (false, h).
Proof.
  destruct v as [l| | |]; cbn [valid is_counter]; try done.
  intros [o Ho]. rewrite Ho. intros Hc.
  by rewrite (isinstance_run _ _ _ _ Ho), Hc.
Qed.

Lemma not_counter_run h (v : value) op self :
  valid h v → is_counter h v = false →
  binop_method op self v h = Some (VNotImplemented, h).
Proof.
  intros Hv Hc. pose proof (not_counter_isinstance _ _ Hv Hc) as Hi.
  destruct op; cbn [binop_method];
    unfold __add__, __sub__, __or__, __and__, __xor__;
    by rewrite (bind_run _ _ _ _ _ Hi).
Qed.

Lemma is_counter_ref h (v : value) :
  is_counter h v = true →
  ∃ l co b, v = VRef l ∧ h !! l = Some (Obj co b) ∧ issubclass co CCounter = true.
Proof.
  destruct v as [l| | |]; cbn [is_counter]; try done.
  destruct (h !! l) as [[co b]|] eqn:Hl; [|done].
  intros Hc. by exists l, co, b.
Qed.

Lemma counter_run h op self other co a b :
  h !! self = Some (Obj COrderedCounter a) → h !! other = Some (Obj co b) →
  issubclass co CCounter = true →
  ∃ n rest its,
    binop_method op self (VRef other) h
    = Some (VRef (length h + n)%nat, h ++ rest)
    ∧ rest !! n = Some (Obj COrderedCounter its).
Proof.
  intros Hs Ho Hc. destruct op; cbn [binop_method].
  - eexists 0%nat, [_], _. rewrite Nat.add_0_r. split; [by eapply add_run | done].
  - eexists 0%nat, [_], _. rewrite Nat.add_0_r. split; [by eapply sub_run | done].
  - eexists 0%nat, [_], _. rewrite Nat.add_0_r. split; [by eapply or_run | done].
  - eexists 0%nat, [_], _. rewrite Nat.add_0_r. split; [by eapply and_run | done].
  - eexists 2%nat, [_; _; _], _.
    replace (length h + 2)%nat with (S (S (length h))) by lia.
    split; [by eapply xor_run | done].
Qed.

Lemma unary_run h op self cs a :
  h !! self = Some (Obj cs a) →
  ∃ its, unop_method op self h = Some (VRef (length h), h ++ [Obj cs its]).
Proof.
  intros Hs. destruct op; cbn [unop_method]; eexists.
  - by eapply pos_run.
  - by eapply neg_run.
Qed.

(** ** Allocation leaves the store alone *)

Lemma preserves_app h rest : preserves h (h ++ rest).
Proof. intros l o Hl. by apply lookup_app_l_Some. Qed.

Lemma returns_fresh_app (m : M value) h n rest :
  m h = Some (VRef (length h + n)%nat, h ++ rest) → is_Some (rest !! n) →
  returns_fresh m h.
Proof.
  intros Hm Hn. exists (length h + n)%nat, (h ++ rest).
  split; [done|]. split; [apply lookup_ge_None; lia|].
  split; [|apply preserves_app].
  by rewrite lookup_app_r, Nat.add_comm, Nat.add_sub by lia.
Qed.

(** ** Copying and rebuilding *)

Lemma copy_loop d :
  NoDup (keys d) → loop (λ (_ : K) c, Some c) d [] = d.
Proof.
  intros Hd. rewrite loop_fresh; [|done|].
  - cbn [app]. clear Hd. induction d as [|[k c] d IH]; [done|].
    cbn. by f_equal.
  - intros. apply not_elem_of_nil.
Qed.

Lemma for_each_copy h cls its :
  ∀ acc,
    for_each its (λ '(key, v), setitem (length h) key v) (h ++ [Obj cls acc])
    = Some (tt, h ++ [Obj cls (loop (λ (_ : K) c, Some c) its acc)]).
Proof.
  apply (for_each_last _ _ (λ (_ : K) c, Some c)).
  intros [k v] acc. apply setitem_last.
Qed.

Lemma dict_new_run h cls src o :
  h !! src = Some o →
  dict_new cls src h
  = Some (length h,
          h ++ [Obj cls (loop (λ (_ : K) c, Some c) (ob_items o) [])]).
Proof.
  intros Hsrc. unfold dict_new.
  run_step new_run. run_step items_run.
  by erewrite bind_run by apply for_each_copy.
Qed.

Lemma Counter_new_mapping_run h cls src o :
  h !! src = Some o →
  Counter_new cls (SrcMapping src) h
  = Some (length h,
          h ++ [Obj cls (loop (λ (_ : K) c, Some c) (ob_items o) [])]).
Proof.
  intros Hsrc. unfold Counter_new, Counter_update.
  run_step new_run.
  erewrite bind_run; [done|].
  erewrite bind_run by (apply items_run, lookup_last). cbn [ob_items].
  erewrite bind_run by (by apply items_run, lookup_old).
  apply for_each_copy.
Qed.

Lemma repr_run h self d :
  h !! self = Some (Obj COrderedCounter d) → NoDup (keys d) →
  __repr__ self h
  = Some (("OrderedCounter"%string, length h), h ++ [Obj COrderedDict d]).
Proof.
  intros Hs Hd. unfold __repr__, OrderedDict.
  run_step class_of_run. run_step dict_new_run.
  cbn [ob_class ob_items class_name]. by rewrite copy_loop.
Qed.

Lemma rebuild_run h self d :
  h !! self = Some (Obj COrderedCounter d) → NoDup (keys d) →
  rebuild self h
  = Some (S (length h), h ++ [Obj COrderedDict d; Obj COrderedCounter d]).
Proof.
  intros Hs Hd. unfold rebuild, __reduce__, OrderedDict.
  erewrite bind_run.
  2:{ run_step class_of_run. run_step dict_new_run. done. }
  cbn [fst snd ob_class ob_items call_class]. rewrite copy_loop by done.
  erewrite Counter_new_mapping_run by apply lookup_last.
  cbn [ob_items]. rewrite copy_loop by done.
  rewrite length_app, <-app_assoc. cbn. do 3 f_equal. lia.
Qed.

(** ** Adding nothing *)

Lemma loop_ext (f g : K → Z → option Z) its acc :
  (∀ k c, f k c = g k c) → loop f its acc = loop g its acc.
Proof.
  intros Hfg. revert acc. induction its as [|[k c] its IH]; intros acc; [done|].
  change (loop f its (put_if f acc (k, c)) = loop g its (put_if g acc (k, c))).
  rewrite IH. unfold put_if. by rewrite Hfg.
Qed.

Lemma add_items_empty a : add_items a [] = pos_items a.
Proof.
  unfold add_items, pos_items. cbn [loop foldl].
  apply loop_ext. intros k c. unfold count_of. cbn. by rewrite Z.add_0_r.
Qed.

Lemma new_empty_run h :
  OrderedCounter (K:=K) SrcNone h
  = Some (length h, h ++ [Obj COrderedCounter []]).
Proof. done. Qed.

(** ** Counts of the results *)

Lemma count_of_two (ks1 ks2 : list K)
    (P1 P2 : K → Prop) `{∀ k, Decision (P1 k)} `{∀ k, Decision (P2 k)}
    (cnt1 cnt2 : K → Z) k :
  count_of (entries ks1 P1 cnt1 ++ entries ks2 (λ k, (k ∉ ks1) ∧ P2 k) cnt2) k
  = if decide (k ∈ ks1 ∧ P1 k) then cnt1 k
    else if decide (k ∈ ks2 ∧ (k ∉ ks1) ∧ P2 k) then cnt2 k else 0.
Proof.
  rewrite count_of_app, !count_of_entries.
  destruct (decide (k ∈ ks1 ∧ P1 k)) as [Hin|Hni].
  - rewrite decide_True; [done | by apply elem_of_keys_entries].
  - rewrite decide_False; [done | by rewrite elem_of_keys_entries].
Qed.

Ltac count_cases a b k :=
  destruct (decide (k ∈ keys a)) as [?|Hna];
    [|pose proof (count_of_absent a k Hna)];
  (destruct (decide (k ∈ keys b)) as [?|Hnb];
    [|pose proof (count_of_absent b k Hnb)]);
  repeat case_decide; try lia; try tauto;
  repeat match goal with
    | H : ¬ (_ ∧ _) |- _ => apply not_and_l in H
    | H : _ ∨ _ |- _ => destruct H
    | H : _ ∧ _ |- _ => destruct H
    end; try lia; try tauto.

Lemma count_of_Add_spec a b k :
  count_of (Add_spec a b) k = Z.max 0 (count_of a k + count_of b k).
Proof. unfold Add_spec. rewrite count_of_two. count_cases a b k. Qed.

Lemma count_of_Subtract_spec a b k :
  count_of (Subtract_spec a b) k = Z.max 0 (count_of a k - count_of b k).
Proof. unfold Subtract_spec. rewrite count_of_two. count_cases a b k. Qed.

Lemma count_of_Union_spec a b k :
  count_of (Union_spec a b) k
  = Z.max 0 (Z.max (count_of a k) (count_of b k)).
Proof. unfold Union_spec. rewrite count_of_two. count_cases a b k. Qed.

Lemma count_of_Intersect_spec a b k :
  count_of (Intersect_spec a b) k
  = Z.max 0 (Z.min (count_of a k) (count_of b k)).
Proof. unfold Intersect_spec. rewrite count_of_entries. count_cases a b k. Qed.

(** ** Equality of contents *)

Lemma positive_entries ks (P : K → Prop) `{∀ k, Decision (P k)} cnt k v :
  (∀ k, P k → 0 < cnt k) → (k, v) ∈ entries ks P cnt → 0 < v.
Proof. intros HP (_ & Hk & ->)%elem_of_entries. by apply HP. Qed.

Lemma positive_Union_spec a b k v : (k, v) ∈ Union_spec a b → 0 < v.
Proof.
  unfold Union_spec. intros [Hin|Hin]%elem_of_app;
    (eapply positive_entries; [|exact Hin]); cbn; intros; lia.
Qed.

Lemma positive_Add_spec a b k v : (k, v) ∈ Add_spec a b → 0 < v.
Proof.
  unfold Add_spec. intros [Hin|Hin]%elem_of_app;
    (eapply positive_entries; [|exact Hin]); cbn; intros; lia.
Qed.

Lemma count_of_positive d k v :
  (∀ k v, (k, v) ∈ d → 0 < v) → 0 < v → count_of d k = v → (k, v) ∈ d.
Proof.
  intros Hpos Hv. unfold count_of.
  destruct (dict_get d k) as [w|] eqn:Hg; cbn; [|lia].
  intros ->. by apply dict_get_elem.
Qed.

Lemma same_counts_Permutation d1 d2 :
  NoDup (keys d1) → NoDup (keys d2) →
  (∀ k v, (k, v) ∈ d1 → 0 < v) → (∀ k v, (k, v) ∈ d2 → 0 < v) →
  (∀ k, count_of d1 k = count_of d2 k) → d1 ≡ₚ d2.
Proof.
  intros Hn1 Hn2 Hp1 Hp2 Hc.
  apply NoDup_Permutation; [by eapply NoDup_fmap_1 ..|].
  intros [k v]. split; intros Hin.
  - apply count_of_positive; [done | by eapply Hp1 |].
    rewrite <-Hc. by apply elem_count_of.
  - apply count_of_positive; [done | by eapply Hp2 |].
    rewrite Hc. by apply elem_count_of.
Qed.

Lemma union_counts a b k :
  count_of (Add_spec (Intersect_spec a b)
              (Subtract_spec (Union_spec a b) (Intersect_spec a b))) k
  = count_of (Union_spec a b) k.
Proof.
  rewrite count_of_Add_spec, count_of_Subtract_spec, count_of_Union_spec,
    count_of_Intersect_spec. lia.
Qed.

Lemma and_plus_xor_run h self other co a b :
  h !! self = Some (Obj COrderedCounter a) → h !! other = Some (Obj co b) →
  issubclass co CCounter = true →
  and_plus_xor self (VRef other) h
  = Some (VRef (length h + 4)%nat,
          h ++ [Obj COrderedCounter (and_items a b);
                Obj COrderedCounter (or_items a b);
                Obj COrderedCounter (and_items a b);
                Obj COrderedCounter (xor_items a b);
                Obj COrderedCounter (add_items (and_items a b) (xor_items a b))]).
Proof.
  intros Hs Ho Hc. unfold and_plus_xor.
  erewrite bind_run by (by eapply and_run).
  erewrite bind_run by (eapply xor_run; eauto using lookup_old).
  erewrite binary_add_run.
  - rewrite !length_app. cbn [length]. rewrite <-!app_assoc. cbn [app].
    do 3 f_equal. lia.
  - apply lookup_app_l_Some, lookup_last.
  - rewrite lookup_app_r by lia.
    by replace (S (S (length (h ++ [Obj COrderedCounter (and_items a b)])))
                - length (h ++ [Obj COrderedCounter (and_items a b)]))%nat
         with 2%nat by lia.
Qed.

Lemma and_plus_xor_result h self other co a b :
  dict_at h self COrderedCounter a → dict_at h other co b →
  issubclass co CCounter = true →
  result_items (and_plus_xor self (VRef other)) h
  = Some (Add_spec (Intersect_spec a b)
            (Subtract_spec (Union_spec a b) (Intersect_spec a b))).
Proof.
  intros [Hs Ha] [Ho Hb] Hc. unfold result_items.
  rewrite (and_plus_xor_run _ _ _ _ _ _ Hs Ho Hc).
  rewrite lookup_app_r by lia.
  replace (length h + 4 - length h)%nat with 4%nat by lia.
  cbn [lookup list_lookup fmap option_fmap option_map ob_items].
  rewrite xor_items_spec, and_items_spec by done.
  rewrite add_items_spec; [done | by apply NoDup_Intersect_spec |].
  apply NoDup_Subtract_spec;
    [by apply NoDup_Union_spec | by apply NoDup_Intersect_spec].
Qed.

(** ** Order of first sight *)

Lemma elem_of_first_seen (ks : list K) k : k ∈ first_seen ks ↔ k ∈ ks.
Proof.
  induction ks as [|k' ks IH]; [done|]. cbn [first_seen].
  rewrite !elem_of_cons, list_elem_of_filter, IH. split.
  - intros [?|[_ ?]]; auto.
  - intros [?|?]; [by left|].
    destruct (decide (k = k')); [by left | by right].
Qed.

Lemma first_seen_snoc (ks : list K) k :
  first_seen (ks ++ [k])
  = if decide (k ∈ ks) then first_seen ks else first_seen ks ++ [k].
Proof.
  induction ks as [|k' ks IH].
  - cbn. rewrite decide_False; [done | apply not_elem_of_nil].
  - cbn [app first_seen]. rewrite IH.
    destruct (decide (k ∈ ks)) as [Hin|Hni].
    + rewrite decide_True by (by right). done.
    + rewrite filter_app. destruct (decide (k = k')) as [->|Hne].
      * rewrite decide_True by left.
        rewrite filter_cons_False, filter_nil, app_nil_r; [done|].
        by intros ?.
      * rewrite decide_False by (rewrite not_elem_of_cons; done).
        by rewrite filter_cons_True, filter_nil.
Qed.

Lemma filter_filter_comm (P Q : K → Prop)
    `{∀ k, Decision (P k)} `{∀ k, Decision (Q k)} (l : list K) :
  filter P (filter Q l) = filter Q (filter P l).
Proof.
  induction l as [|x l IH]; [done|].
  destruct (decide (P x)), (decide (Q x));
    repeat first [ rewrite filter_cons_True by done
                 | rewrite filter_cons_False by done ];
    by rewrite ?IH.
Qed.

Lemma first_seen_filter (ks : list K) k :
  first_seen (filter (λ k', k' ≠ k) ks) = filter (λ k', k' ≠ k) (first_seen ks).
Proof.
  induction ks as [|k' ks IH]; [done|]. cbn [first_seen].
  destruct (decide (k' = k)) as [->|Hne].
  - rewrite !filter_cons_False by naive_solver.
    rewrite IH. symmetry. apply list_filter_filter_l. naive_solver.
  - rewrite !filter_cons_True by done. cbn [first_seen].
    by rewrite IH, filter_filter_comm.
Qed.

Lemma first_seen_NoDup (ks : list K) : NoDup (first_seen ks).
Proof.
  induction ks as [|k ks IH]; [constructor|]. cbn [first_seen].
  apply NoDup_cons. split; [|by apply NoDup_filter].
  rewrite list_elem_of_filter. by intros [? _].
Qed.

(** ** Events *)

Lemma since_deletion_snoc_Seen (evs : list (event (K:=K))) k :
  since_deletion (evs ++ [Seen k]) = since_deletion evs ++ [k].
Proof.
  induction evs as [|[k'|k'] evs IH].
  - cbn. rewrite decide_False; [done | apply not_elem_of_nil].
  - cbn [app since_deletion]. rewrite IH.
    destruct (decide (Gone k' ∈ evs)) as [Hin|Hni].
    + rewrite decide_True; [done|]. apply elem_of_app. by left.
    + rewrite decide_False; [done|].
      rewrite elem_of_app, list_elem_of_singleton. by intros [?|?].
  - cbn [app since_deletion]. done.
Qed.

Lemma since_deletion_snoc_Gone (evs : list (event (K:=K))) k :
  since_deletion (evs ++ [Gone k])
  = filter (λ k', k' ≠ k) (since_deletion evs).
Proof.
  induction evs as [|[k'|k'] evs IH]; [done| |done].
  cbn [app since_deletion]. rewrite IH.
  destruct (decide (k' = k)) as [->|Hne].
  - rewrite decide_True by (apply elem_of_app; right; left).
    destruct (decide (Gone k ∈ evs)); [done|].
    by rewrite filter_cons_False by naive_solver.
  - destruct (decide (Gone k' ∈ evs)) as [Hin|Hni].
    + rewrite decide_True; [done|]. apply elem_of_app. by left.
    + rewrite decide_False.
      * by rewrite filter_cons_True.
      * rewrite elem_of_app, list_elem_of_singleton.
        intros [?|[= ?]]; done.
Qed.

Lemma since_deletion_no_Gone (evs : list (event (K:=K))) :
  (∀ k, Gone k ∉ evs) → since_deletion evs = written evs.
Proof.
  induction evs as [|[k'|k'] evs IH]; intros Hno; [done| |].
  - cbn [since_deletion]. rewrite decide_False by (intros ?; eapply Hno; by right).
    change (written (Seen k' :: evs)) with (k' :: written evs).
    rewrite IH; [done|]. intros k ?. eapply Hno. by right.
  - exfalso. eapply Hno. left.
Qed.

Lemma written_Seen (ks : list K) : written (Seen <$> ks) = ks.
Proof. induction ks as [|k ks IH]; [done|]. cbn. by f_equal. Qed.

Lemma written_app (e1 e2 : list (event (K:=K))) :
  written (e1 ++ e2) = written e1 ++ written e2.
Proof. apply omap_app. Qed.

(** ** A counter's life *)

Lemma keys_mutate_items d m :
  keys (mutate_items d m)
  = match event_of m with
    | Seen k => if decide (k ∈ keys d) then keys d else keys d ++ [k]
    | Gone k => filter (λ k', k' ≠ k) (keys d)
    end.
Proof.
  destruct m as [k delta|k n|k]; cbn [mutate_items event_of].
  - apply keys_dict_set.
  - apply keys_dict_set.
  - apply keys_dict_del.
Qed.

Lemma keys_mutations (ms : list (mutation (K:=K))) :
  keys (foldl mutate_items [] ms)
  = first_seen (since_deletion (event_of <$> ms)).
Proof.
  induction ms as [|m ms IH] using rev_ind; [done|].
  rewrite foldl_snoc, keys_mutate_items, fmap_app, IH. cbn [fmap list_fmap].
  destruct (event_of m) as [k|k].
  - rewrite since_deletion_snoc_Seen, first_seen_snoc.
    destruct (decide (k ∈ since_deletion (event_of <$> ms))) as [Hin|Hni].
    + rewrite decide_True; [done | by apply elem_of_first_seen].
    + rewrite decide_False; [done | by rewrite elem_of_first_seen].
  - by rewrite since_deletion_snoc_Gone, first_seen_filter.
Qed.

Lemma mutate_last h cls d m :
  mutate (length h) m (h ++ [Obj cls d])
  = Some (tt, h ++ [Obj cls (mutate_items d m)]).
Proof.
  destruct m as [k delta|k n|k]; cbn [mutate mutate_items].
  - erewrite bind_run by (apply getitem_run, lookup_last).
    apply setitem_last.
  - apply setitem_last.
  - apply delitem_last.
Qed.

Lemma for_each_mutations {A} (g : A → mutation) (body : A → M unit) h cls l :
  (∀ x d, body x (h ++ [Obj cls d])
          = Some (tt, h ++ [Obj cls (mutate_items d (g x))])) →
  ∀ d, for_each l body (h ++ [Obj cls d])
       = Some (tt, h ++ [Obj cls (foldl mutate_items d (g <$> l))]).
Proof.
  intros Hbody. induction l as [|x l IH]; intros d; [done|].
  cbn [for_each]. rewrite (bind_run _ _ _ _ _ (Hbody x d)). by rewrite IH.
Qed.

Lemma for_each_mutate h cls ms :
  ∀ d, for_each ms (mutate (length h)) (h ++ [Obj cls d])
       = Some (tt, h ++ [Obj cls (foldl mutate_items d ms)]).
Proof.
  induction ms as [|m ms IH]; intros d; [done|].
  cbn [for_each]. rewrite (bind_run _ _ _ _ _ (mutate_last h cls d m)).
  by rewrite IH.
Qed.

Lemma OrderedCounter_run h src ks :
  source_keys h src = Some ks →
  ∃ ms0, event_of <$> ms0 = Seen <$> ks
         ∧ OrderedCounter src h
           = Some (length h,
                   h ++ [Obj COrderedCounter (foldl mutate_items [] ms0)]).
Proof.
  unfold OrderedCounter, Counter_new.
  destruct src as [|elems|m]; cbn [source_keys Counter_update].
  - intros [= <-]. by exists [].
  - intros [= <-]. exists ((λ k, Increment k 1) <$> elems). split.
    + rewrite <-list_fmap_compose. done.
    + run_step new_run.
      erewrite bind_run; [done|].
      apply (for_each_mutations (λ k, Increment k 1)).
      intros k d. apply (mutate_last h _ d (Increment k 1)).
  - destruct (h !! m) as [o|] eqn:Hm; [|done]. intros [= <-].
    exists ((λ kv, SetCount kv.1 kv.2) <$> ob_items o). split.
    + unfold keys. rewrite <-!list_fmap_compose. done.
    + run_step new_run.
      erewrite bind_run; [done|].
      erewrite bind_run by (apply items_run, lookup_last). cbn [ob_items].
      erewrite bind_run by (by apply items_run, lookup_old).
      apply (for_each_mutations (λ kv, SetCount kv.1 kv.2)).
      intros [k v] d. apply (mutate_last h _ d (SetCount k v)).
Qed.

Lemma life_run h src ms ks :
  source_keys h src = Some ks →
  ∃ h', life src ms h
        = Some (first_seen (since_deletion ((Seen <$> ks) ++ (event_of <$> ms))),
                h').
Proof.
  intros (ms0 & Hev & Hnew)%OrderedCounter_run. unfold life.
  rewrite (bind_run _ _ _ _ _ Hnew).
  erewrite bind_run by apply for_each_mutate.
  unfold order. erewrite bind_run by (apply items_run, lookup_last).
  cbn [ob_items]. rewrite <-foldl_app, keys_mutations.
  rewrite fmap_app, Hev. by eexists.
Qed.

Lemma setitem_run h l cls d k v :
  h !! l = Some (Obj cls d) →
  setitem l k v h = Some (tt, <[l := Obj cls (dict_set k v d)]> h).
Proof.
  intros Hl. unfold setitem.
  rewrite (bind_run _ _ _ _ _ (load_run _ _ _ Hl)).
  unfold store. by rewrite Hl.
Qed.

Lemma write_present_run h c cls d m k :
  h !! c = Some (Obj cls d) → k ∈ keys d → event_of m = Seen k →
  ∃ h', (mutate c m ;; order c) h = Some (keys d, h').
Proof.
  intros Hc Hk Hm.
  assert (Hset : ∀ v, (setitem c k v ;; order c) h
                      = Some (keys d, <[c := Obj cls (dict_set k v d)]> h)).
  { intros v. rewrite (bind_run _ _ _ _ _ (setitem_run _ _ _ _ _ v Hc)).
    unfold order. erewrite bind_run.
    2:{ apply items_run, list_lookup_insert_eq. by eapply lookup_lt_Some. }
    cbn [ob_items]. by rewrite keys_dict_set_present. }
  destruct m as [k' delta|k' n|k']; cbn [event_of] in Hm; [| |done];
    injection Hm as ->; cbn [mutate].
  - eexists. unfold bind at 1.
    erewrite bind_run by (by apply getitem_run). apply Hset.
  - eexists. apply Hset.
Qed.

Lemma no_Delete_no_Gone (ks : list K) (ms : list (mutation (K:=K))) :
  (∀ k, Delete k ∉ ms) → ∀ k, Gone k ∉ (Seen <$> ks) ++ (event_of <$> ms).
Proof.
  intros Hno k [Hin|Hin]%elem_of_app.
  - by apply list_elem_of_fmap in Hin as (? & ? & _).
  - apply list_elem_of_fmap in Hin as (m & Hm & Hin).
    destruct m as [| |k']; try done. injection Hm as ->. by eapply Hno.
Qed.

(** A constructed counter has pairwise distinct keys. *)
Lemma OrderedCounter_keys_distinct h src ks :
  source_keys h src = Some ks →
  ∃ d, OrderedCounter src h = Some (length h, h ++ [Obj COrderedCounter d])
       ∧ dict_at (h ++ [Obj COrderedCounter d]) (length h) COrderedCounter d.
Proof.
  intros (ms0 & _ & Hnew)%OrderedCounter_run.
  eexists. split; [done|]. split; [apply lookup_last|].
  rewrite keys_mutations. apply first_seen_NoDup.
Qed.

(** ** All operations at once *)

Lemma neg_items_spec a : NoDup (keys a) → neg_items a = Negate_spec a.
Proof.
  intros Ha. unfold neg_items, Negate_spec. rewrite loop_fresh; [|done|].
  - cbn [app]. clear Ha.
    set (g := λ kc : K * Z, pair kc.1 <$> keep_if (kc.2 <? 0) (0 - kc.2)).
    induction a as [|[k c] a IH]; [done|].
    change (omap g ((k, c) :: a))
      with (match g (k, c) with Some y => y :: omap g a | None => omap g a end).
    unfold g at 1. cbn [fst snd]. rewrite IH.
    destruct (Z.ltb_spec c 0); cbn [keep_if fmap option_fmap option_map].
    + rewrite filter_cons_True by done. cbn. by rewrite Z.sub_0_l.
    + rewrite filter_cons_False; [done | cbn; lia].
  - intros. apply not_elem_of_nil.
Qed.

Lemma neg_result h self cs a :
  dict_at h self cs a →
  result_items (__neg__ self) h = Some (Negate_spec a).
Proof.
  intros [Hs Ha].
  rewrite (result_items_last _ _ _ (neg_run _ _ _ _ Hs)).
  cbn [ob_items]. by rewrite neg_items_spec.
Qed.

Lemma binop_run h op self other co a b :
  h !! self = Some (Obj COrderedCounter a) → h !! other = Some (Obj co b) →
  issubclass co CCounter = true →
  ∃ n rest,
    binop_method op self (VRef other) h
    = Some (VRef (length h + n)%nat, h ++ rest)
    ∧ rest !! n = Some (Obj COrderedCounter (binop_items op a b)).
Proof.
  intros Hs Ho Hc. destruct op; cbn [binop_method binop_items].
  - eexists 0%nat, [_]. rewrite Nat.add_0_r. split; [by eapply add_run | done].
  - eexists 0%nat, [_]. rewrite Nat.add_0_r. split; [by eapply sub_run | done].
  - eexists 0%nat, [_]. rewrite Nat.add_0_r. split; [by eapply or_run | done].
  - eexists 0%nat, [_]. rewrite Nat.add_0_r. split; [by eapply and_run | done].
  - eexists 2%nat, [_; _; _].
    replace (length h + 2)%nat with (S (S (length h))) by lia.
    split; [by eapply xor_run | done].
Qed.

Lemma binop_items_spec op a b :
  NoDup (keys a) → NoDup (keys b) → binop_items op a b = binop_spec op a b.
Proof.
  intros Ha Hb. destruct op; cbn [binop_items binop_spec].
  - by apply add_items_spec.
  - by apply sub_items_spec.
  - by apply or_items_spec.
  - by apply and_items_spec.
  - by apply xor_items_spec.
Qed.

Lemma lookup_app_plus h (rest : list (object (K:=K))) n :
  (h ++ rest) !! (length h + n)%nat = rest !! n.
Proof. by rewrite lookup_app_r, Nat.add_comm, Nat.add_sub by lia. Qed.

Lemma binop_result h op self other co a b :
  dict_at h self COrderedCounter a → dict_at h other co b →
  issubclass co CCounter = true →
  result_items (binop_method op self (VRef other)) h
  = Some (binop_spec op a b).
Proof.
  intros [Hs Ha] [Ho Hb] Hc.
  destruct (binop_run h op self other co a b Hs Ho Hc) as (n & rest & Hrun & Hn).
  unfold result_items. rewrite Hrun, lookup_app_plus, Hn. cbn.
  by rewrite binop_items_spec.
Qed.

Lemma NoDup_binop_spec op a b :
  NoDup (keys a) → NoDup (keys b) → NoDup (keys (binop_spec op a b)).
Proof.
  intros Ha Hb. destruct op; cbn [binop_spec].
  - by apply NoDup_Add_spec.
  - by apply NoDup_Subtract_spec.
  - by apply NoDup_Union_spec.
  - by apply NoDup_Intersect_spec.
  - apply NoDup_Subtract_spec;
      [by apply NoDup_Union_spec | by apply NoDup_Intersect_spec].
Qed.

Lemma positive_Subtract_spec a b k v : (k, v) ∈ Subtract_spec a b → 0 < v.
Proof.
  unfold Subtract_spec. intros [Hin|Hin]%elem_of_app;
    (eapply positive_entries; [|exact Hin]); cbn; intros; lia.
Qed.

Lemma positive_Intersect_spec a b k v : (k, v) ∈ Intersect_spec a b → 0 < v.
Proof.
  unfold Intersect_spec. intros Hin.
  (eapply positive_entries; [|exact Hin]); cbn; intros; lia.
Qed.

Lemma positive_binop_spec op a b k v : (k, v) ∈ binop_spec op a b → 0 < v.
Proof.
  destruct op; cbn [binop_spec].
  - apply positive_Add_spec.
  - apply positive_Subtract_spec.
  - apply positive_Union_spec.
  - apply positive_Intersect_spec.
  - apply positive_Subtract_spec.
Qed.

Lemma count_of_binop_spec op a b k :
  count_of (binop_spec op a b) k
  = binop_count op (count_of a k) (count_of b k).
Proof.
  destruct op; cbn [binop_spec binop_count].
  - apply count_of_Add_spec.
  - apply count_of_Subtract_spec.
  - apply count_of_Union_spec.
  - apply count_of_Intersect_spec.
  - by rewrite count_of_Subtract_spec, count_of_Union_spec,
      count_of_Intersect_spec.
Qed.

Lemma Forall_positive d :
  (∀ k v, (k, v) ∈ d → 0 < v) ↔ Forall (λ kc, 0 < kc.2) d.
Proof.
  rewrite Forall_forall. split.
  - intros Hd [k v] Hin. by eapply Hd.
  - intros Hd k v Hin. by apply (Hd (k, v)).
Qed.

(** ** Special operands *)

Lemma entries_nil (ks : list K) (P : K → Prop) `{∀ k, Decision (P k)} cnt :
  (∀ k, k ∈ ks → ¬ P k) → entries ks P cnt = [].
Proof.
  intros HP. unfold entries. induction ks as [|k ks IH]; [done|].
  rewrite filter_cons_False by (apply HP; left).
  apply IH. intros k' Hin. apply HP. by right.
Qed.

Lemma entries_of_items a (P : K → Prop) `{∀ k, Decision (P k)} cnt
    (Q : K * Z → Prop) `{∀ x, Decision (Q x)} (g : Z → Z) :
  (∀ k c, (k, c) ∈ a → (P k ↔ Q (k, c)) ∧ (P k → cnt k = g c)) →
  entries (keys a) P cnt = (λ kc, (kc.1, g kc.2)) <$> filter Q a.
Proof.
  unfold entries. induction a as [|[k c] a IH]; intros Ha; [done|].
  change (keys ((k, c) :: a)) with (k :: keys a).
  destruct (Ha k c) as [HPQ Hcnt]; [left|].
  assert (IH' := IH (λ k' c' Hin, Ha k' c' (list_elem_of_further _ _ _ Hin))).
  destruct (decide (P k)) as [HP|HP].
  - rewrite !filter_cons_True by (done || by apply HPQ).
    cbn [fmap list_fmap fst snd]. by rewrite Hcnt, <-IH'.
  - rewrite !filter_cons_False by (done || by rewrite <-HPQ). done.
Qed.

Lemma pairs_id (l : list (K * Z)) : (λ kc, (kc.1, kc.2)) <$> l = l.
Proof. induction l as [|[k c] l IH]; [done|]. cbn. by f_equal. Qed.

Lemma Positive_spec_fixed d :
  (∀ k v, (k, v) ∈ d → 0 < v) → Positive_spec d = d.
Proof.
  unfold Positive_spec. induction d as [|[k c] d IH]; intros Hd; [done|].
  rewrite filter_cons_True by (cbn; apply (Hd k); left).
  f_equal. apply IH. intros k' v' Hin. apply (Hd k'). by right.
Qed.

Lemma Negate_spec_positive d :
  (∀ k v, (k, v) ∈ d → 0 < v) → Negate_spec d = [].
Proof.
  unfold Negate_spec. induction d as [|[k c] d IH]; intros Hd; [done|].
  rewrite filter_cons_False by (cbn; specialize (Hd k c ltac:(left)); lia).
  apply IH. intros k' v' Hin. apply (Hd k'). by right.
Qed.

Lemma positive_Positive_spec a k v : (k, v) ∈ Positive_spec a → 0 < v.
Proof. unfold Positive_spec. by intros [? _]%list_elem_of_filter. Qed.

Lemma positive_Negate_spec a k v : (k, v) ∈ Negate_spec a → 0 < v.
Proof.
  unfold Negate_spec.
  intros ([k' c] & [= -> ->] & [Hc _]%list_elem_of_filter)%list_elem_of_fmap.
  cbn in *. lia.
Qed.

Lemma sublist_keys_filter (Q : K * Z → Prop) `{∀ x, Decision (Q x)} a :
  keys (filter Q a) `sublist_of` keys a.
Proof. unfold keys. apply fmap_sublist, sublist_filter. Qed.

Lemma NoDup_Positive_spec a : NoDup (keys a) → NoDup (keys (Positive_spec a)).
Proof. intros Ha. eapply sublist_NoDup; [done | apply sublist_keys_filter]. Qed.

Lemma NoDup_Negate_spec a : NoDup (keys a) → NoDup (keys (Negate_spec a)).
Proof.
  intros Ha. unfold Negate_spec, keys. rewrite <-list_fmap_compose.
  eapply sublist_NoDup; [done | apply (sublist_keys_filter (λ kc, kc.2 < 0))].
Qed.

(** An operand taken twice. *)
Lemma Subtract_spec_self a : NoDup (keys a) → Subtract_spec a a = [].
Proof.
  intros Ha. unfold Subtract_spec.
  rewrite !entries_nil; [done| |]; intros k Hk; [tauto | lia].
Qed.

Lemma Union_spec_self a : NoDup (keys a) → Union_spec a a = Positive_spec a.
Proof.
  intros Ha. unfold Union_spec.
  rewrite (entries_nil (keys a) (λ k, (k ∉ keys a) ∧ _)) by (intros k Hk; tauto).
  rewrite app_nil_r, (entries_of_items a _ _ (λ kc, 0 < kc.2) id).
  - apply pairs_id.
  - intros k c Hin. rewrite (elem_count_of a k c) by done. cbn. split; lia.
Qed.

Lemma Intersect_spec_self a :
  NoDup (keys a) → Intersect_spec a a = Positive_spec a.
Proof.
  intros Ha. unfold Intersect_spec.
  rewrite (entries_of_items a _ _ (λ kc, 0 < kc.2) id).
  - apply pairs_id.
  - intros k c Hin. rewrite (elem_count_of a k c) by done. cbn. split; lia.
Qed.

Lemma Add_spec_self a :
  NoDup (keys a) →
  Add_spec a a = (λ kc, (kc.1, 2 * kc.2)) <$> Positive_spec a.
Proof.
  intros Ha. unfold Add_spec.
  rewrite (entries_nil (keys a) (λ k, (k ∉ keys a) ∧ _)) by (intros k Hk; tauto).
  rewrite app_nil_r.
  apply (entries_of_items a _ _ (λ kc, 0 < kc.2) (λ c, 2 * c)).
  intros k c Hin. rewrite (elem_count_of a k c) by done. cbn. split; lia.
Qed.

(** An empty right operand. *)
Lemma count_of_nil (k : K) : count_of [] k = 0.
Proof. done. Qed.

Lemma Subtract_spec_nil_r a :
  NoDup (keys a) → Subtract_spec a [] = Positive_spec a.
Proof.
  intros Ha. unfold Subtract_spec. cbn [keys fmap list_fmap entries filter].
  rewrite app_nil_r, (entries_of_items a _ _ (λ kc, 0 < kc.2) id).
  - apply pairs_id.
  - intros k c Hin. rewrite (elem_count_of a k c), count_of_nil by done.
    cbn. split; lia.
Qed.

Lemma Union_spec_nil_r a :
  NoDup (keys a) → Union_spec a [] = Positive_spec a.
Proof.
  intros Ha. unfold Union_spec. cbn [keys fmap list_fmap entries filter].
  rewrite app_nil_r, (entries_of_items a _ _ (λ kc, 0 < kc.2) id).
  - apply pairs_id.
  - intros k c Hin. rewrite (elem_count_of a k c), count_of_nil by done.
    cbn. split; lia.
Qed.

Lemma Intersect_spec_nil_r a : Intersect_spec a [] = [].
Proof.
  unfold Intersect_spec. apply entries_nil.
  intros k _. rewrite count_of_nil. lia.
Qed.

(** An empty left operand. *)
Lemma Add_spec_nil_l b : NoDup (keys b) → Add_spec [] b = Positive_spec b.
Proof.
  intros Hb. unfold Add_spec. cbn [keys fmap list_fmap entries filter app].
  rewrite (entries_of_items b _ _ (λ kc, 0 < kc.2) id).
  - apply pairs_id.
  - intros k c Hin. rewrite (elem_count_of b k c) by done. cbn.
    split; [|done]. split; [tauto|]. intros Hc. split; [apply not_elem_of_nil|done].
Qed.

Lemma Union_spec_nil_l b : NoDup (keys b) → Union_spec [] b = Positive_spec b.
Proof. apply Add_spec_nil_l. Qed.

Lemma Subtract_spec_nil_l b :
  NoDup (keys b) → Subtract_spec [] b = Negate_spec b.
Proof.
  intros Hb. unfold Subtract_spec, Negate_spec.
  cbn [keys fmap list_fmap entries filter app].
  rewrite (entries_of_items b _ _ (λ kc, kc.2 < 0) (λ c, - c)); [done|].
  intros k c Hin. rewrite (elem_count_of b k c) by done. cbn.
  split; [|done]. split; [tauto|]. intros Hc. split; [apply not_elem_of_nil|done].
Qed.

Lemma Intersect_spec_nil_l b : Intersect_spec [] b = [].
Proof. done. Qed.

(** ** Operations one after another *)

Lemma unop_run_items h u self cs a :
  h !! self = Some (Obj cs a) →
  unop_method u self h
  = Some (VRef (length h),
          h ++ [Obj cs (match u with
                        | Positive => pos_items a
                        | Negate => neg_items a
                        end)]).
Proof.
  intros Hs. destruct u; cbn [unop_method]; [by apply pos_run | by apply neg_run].
Qed.

Lemma unop_result h u self cs a :
  dict_at h self cs a →
  result_items (unop_method u self) h
  = Some (match u with Positive => Positive_spec a | Negate => Negate_spec a end).
Proof.
  intros Ha. destruct u; cbn [unop_method];
    [by eapply pos_result | by eapply neg_result].
Qed.

Lemma then_unary_result h u (m : M value) n rest cs d :
  m h = Some (VRef (length h + n)%nat, h ++ rest) →
  rest !! n = Some (Obj cs d) → NoDup (keys d) →
  result_items (then_unary u m) h
  = Some (match u with Positive => Positive_spec d | Negate => Negate_spec d end).
Proof.
  intros Hm Hn Hd. unfold result_items, then_unary.
  rewrite (bind_run _ _ _ _ _ Hm). cbn [as_ref].
  erewrite bind_run by done.
  assert (Hl : (h ++ rest) !! (length h + n)%nat = Some (Obj cs d))
    by by rewrite lookup_app_plus.
  rewrite (unop_run_items _ u _ _ _ Hl), lookup_last. cbn.
  destruct u; by rewrite ?pos_items_spec, ?neg_items_spec.
Qed.

Lemma binary_add_counter_run h x y a co b :
  h !! x = Some (Obj COrderedCounter a) → h !! y = Some (Obj co b) →
  issubclass co CCounter = true →
  binary_add (VRef x) (VRef y) h
  = Some (VRef (length h), h ++ [Obj COrderedCounter (add_items a b)]).
Proof.
  intros Hx Hy Hc. unfold binary_add. cbn [as_ref].
  erewrite bind_run by done.
  run_step class_of_run. cbn [ob_class].
  by erewrite bind_run by (by eapply add_run).
Qed.

Lemma or_plus_and_result h self other co a b :
  dict_at h self COrderedCounter a → dict_at h other co b →
  issubclass co CCounter = true →
  result_items (or_plus_and self (VRef other)) h
  = Some (Add_spec (Union_spec a b) (Intersect_spec a b)).
Proof.
  intros [Hs Ha] [Ho Hb] Hc. unfold result_items, or_plus_and.
  erewrite bind_run by (by eapply or_run).
  erewrite bind_run by (eapply and_run; eauto using lookup_old).
  erewrite binary_add_run;
    [|apply lookup_app_l_Some, lookup_last | apply lookup_last].
  rewrite lookup_last. cbn [fmap option_fmap option_map ob_items].
  rewrite or_items_spec, and_items_spec by done.
  rewrite add_items_spec;
    [done | by apply NoDup_Union_spec | by apply NoDup_Intersect_spec].
Qed.

Lemma sub_plus_result h self other co a b :
  dict_at h self COrderedCounter a → dict_at h other co b →
  issubclass co CCounter = true →
  result_items (sub_plus self (VRef other)) h
  = Some (Add_spec (Subtract_spec a b) b).
Proof.
  intros [Hs Ha] [Ho Hb] Hc. unfold result_items, sub_plus.
  erewrite bind_run by (by eapply sub_run).
  erewrite binary_add_counter_run;
    [|apply lookup_last | by apply lookup_old | done].
  rewrite lookup_last. cbn [fmap option_fmap option_map ob_items].
  rewrite sub_items_spec by done.
  rewrite add_items_spec; [done | by apply NoDup_Subtract_spec | done].
Qed.

Lemma count_of_nonneg d k : Forall (λ kc, 0 ≤ kc.2) d → 0 ≤ count_of d k.
Proof.
  intros Hd. unfold count_of.
  destruct (dict_get d k) as [v|] eqn:Hg; cbn; [|lia].
  apply dict_get_elem in Hg. rewrite Forall_forall in Hd.
  apply (Hd (k, v) Hg).
Qed.

Lemma reduce_run h self d :
  h !! self = Some (Obj COrderedCounter d) → NoDup (keys d) →
  __reduce__ self h
  = Some ((COrderedCounter, length h), h ++ [Obj COrderedDict d]).
Proof.
  intros Hs Hd. unfold __reduce__, OrderedDict.
  run_step class_of_run. run_step dict_new_run.
  cbn [ob_class ob_items]. by rewrite copy_loop.
Qed.

(** ** Counting the elements of a sequence *)

Lemma count_of_dict_set d k v k' :
  count_of (dict_set k v d) k' = if decide (k' = k) then v else count_of d k'.
Proof.
  unfold count_of. induction d as [|[k0 v0] d IH]; cbn.
  - destruct (decide (k' = k)); done.
  - destruct (decide (k = k0)) as [->|Hne]; cbn.
    + destruct (decide (k' = k0)); done.
    + destruct (decide (k' = k0)) as [->|Hne'].
      * destruct (decide (k0 = k)); [congruence | done].
      * apply IH.
Qed.

Lemma occurrences_cons (elems : list K) x k :
  occurrences (x :: elems) k
  = (if decide (x = k) then 1 else 0) + occurrences elems k.
Proof.
  unfold occurrences. destruct (decide (x = k)) as [->|Hne].
  - rewrite filter_cons_True by done. cbn [length]. lia.
  - rewrite filter_cons_False by done. lia.
Qed.

Lemma count_of_counted (elems : list K) d k :
  count_of (foldl mutate_items d ((λ x, Increment x 1) <$> elems)) k
  = count_of d k + occurrences elems k.
Proof.
  revert d. induction elems as [|x elems IH]; intros d.
  - change (count_of d k = count_of d k + 0). lia.
  - change (count_of
              (foldl mutate_items (mutate_items d (Increment x 1))
                 ((λ x, Increment x 1) <$> elems)) k
            = count_of d k + occurrences (x :: elems) k).
    rewrite IH, occurrences_cons.
    cbn [mutate_items]. rewrite count_of_dict_set.
    destruct (decide (k = x)) as [->|Hne].
    + rewrite decide_True by done. lia.
    + rewrite decide_False by congruence. lia.
Qed.

Lemma items_from_counts d :
  NoDup (keys d) → d = (λ k, (k, count_of d k)) <$> keys d.
Proof.
  intros Hd. unfold keys. rewrite <-list_fmap_compose.
  rewrite <-(list_fmap_id d) at 1. apply list_fmap_ext.
  intros i [k c] Hi. cbn. f_equal. symmetry.
  apply elem_count_of; [done|]. by eapply list_elem_of_lookup_2.
Qed.

Lemma counted_run h (elems : list K) :
  OrderedCounter (SrcIter elems) h
  = Some (length h,
          h ++ [Obj COrderedCounter
                  ((λ k, (k, occurrences elems k)) <$> first_seen elems)]).
Proof.
  assert (Hrun : OrderedCounter (SrcIter elems) h
    = Some (length h,
            h ++ [Obj COrderedCounter
                    (foldl mutate_items [] ((λ x, Increment x 1) <$> elems))])).
  { unfold OrderedCounter, Counter_new. cbn [Counter_update].
    run_step new_run. erewrite bind_run; [done|].
    apply (for_each_mutations (λ k, Increment k 1)).
    intros k d. apply (mutate_last h _ d (Increment k 1)). }
  rewrite Hrun. do 5 f_equal.
  set (d := foldl mutate_items [] _).
  assert (Hk : keys d = first_seen elems).
  { unfold d. rewrite keys_mutations, <-list_fmap_compose.
    change (event_of ∘ (λ x : K, Increment x 1)) with (@Seen K).
    rewrite since_deletion_no_Gone, written_Seen; [done|].
    intros k (? & ? & _)%list_elem_of_fmap. done. }
  rewrite (items_from_counts d) by (rewrite Hk; apply first_seen_NoDup).
  rewrite Hk. apply list_fmap_ext. intros i k _. f_equal.
  unfold d. by rewrite count_of_counted.
Qed.

End Facts.

(** * The operations *)

(** C1.  Add(a, b) holds, for each key of a in a's order, the count
    a[key] + b[key] if and only if that sum is strictly positive, followed
    by each key of b absent from a, in b's order, with count b[key], if and
    only if b[key] > 0; on the strings "abbbd" and "bcc" the result is
    [(a,1),(b,4),(d,1),(c,2)]. *)
Theorem add_entries_in_order :
  (∀ (K : Type) `(EqDecision K) (h : list object) (self other : loc)
     (co : class) (a b : list (K * Z)),
     dict_at h self COrderedCounter a → dict_at h other co b →
     issubclass co CCounter = true →
     result_items (__add__ self (VRef other)) h = Some (Add_spec a b))
  ∧ on_strings __add__ "abbbd" "bcc"
    = Some [("a", 1); ("b", 4); ("d", 1); ("c", 2)]%char.
Proof.
  split; [|reflexivity].
  intros K ? h self other co a b. apply add_result.
Qed.

Lemma add_entries_in_order_witness :
  result_items (__add__ 0%nat (VRef 1%nat))
    [Obj COrderedCounter [("a", 2); ("b", -3); ("d", 1)]%char;
     Obj CCounter [("e", 4); ("b", 1); ("d", 2); ("f", -1)]%char]
  = Some [("a", 2); ("d", 3); ("e", 4)]%char.
Proof.
  refine (proj1 add_entries_in_order ascii _
            [Obj COrderedCounter [("a", 2); ("b", -3); ("d", 1)]%char;
             Obj CCounter [("e", 4); ("b", 1); ("d", 2); ("f", -1)]%char]
            0%nat 1%nat CCounter
            [("a", 2); ("b", -3); ("d", 1)]%char
            [("e", 4); ("b", 1); ("d", 2); ("f", -1)]%char _ _ _).
  - split; [reflexivity | by apply (bool_decide_unpack _)].
  - split; [reflexivity | by apply (bool_decide_unpack _)].
  - reflexivity.
Defined.

(** C2.  Subtract(a, b) holds, for each key of a in a's order, the count
    a[key] - b[key] if and only if that difference is strictly positive,
    followed by each key of b absent from a, in b's order, if and only if
    b[key] < 0, with count -b[key]; on the strings "abbbc" and "bccd" the
    result is [(a,1),(b,2)]. *)
Theorem subtract_entries_in_order :
  (∀ (K : Type) `(EqDecision K) (h : list object) (self other : loc)
     (co : class) (a b : list (K * Z)),
     dict_at h self COrderedCounter a → dict_at h other co b →
     issubclass co CCounter = true →
     result_items (__sub__ self (VRef other)) h = Some (Subtract_spec a b))
  ∧ on_strings __sub__ "abbbc" "bccd" = Some [("a", 1); ("b", 2)]%char.
Proof.
  split; [|reflexivity].
  intros K ? h self other co a b. apply sub_result.
Qed.

Lemma subtract_entries_in_order_witness :
  result_items (__sub__ 0%nat (VRef 1%nat))
    [Obj COrderedCounter [("a", 2); ("b", -3); ("d", 1)]%char;
     Obj CCounter [("e", 4); ("b", 1); ("d", 2); ("f", -1)]%char]
  = Some [("a", 2); ("f", 1)]%char.
Proof.
  refine (proj1 subtract_entries_in_order ascii _
            [Obj COrderedCounter [("a", 2); ("b", -3); ("d", 1)]%char;
             Obj CCounter [("e", 4); ("b", 1); ("d", 2); ("f", -1)]%char]
            0%nat 1%nat CCounter
            [("a", 2); ("b", -3); ("d", 1)]%char
            [("e", 4); ("b", 1); ("d", 2); ("f", -1)]%char _ _ _).
  - split; [reflexivity | by apply (bool_decide_unpack _)].
  - split; [reflexivity | by apply (bool_decide_unpack _)].
  - reflexivity.
Defined.

(** C3.  Intersect(a, b) goes through the keys of a only, in a's order,
    and holds each with count min(a[key], b[key]) if and only if that
    minimum is strictly positive; a key that only b has is never in the
    result, whatever count b gives it. *)
Theorem intersect_entries_in_order :
  ∀ (K : Type) `(EqDecision K) (h : list object) (self other : loc)
    (co : class) (a b : list (K * Z)),
    dict_at h self COrderedCounter a → dict_at h other co b →
    issubclass co CCounter = true →
    ∃ its,
      result_items (__and__ self (VRef other)) h = Some its
      ∧ its = Intersect_spec a b
      ∧ ∀ k, k ∉ keys a → k ∉ keys its.
Proof.
  intros K ? h self other co a b Ha Hb Hc.
  exists (Intersect_spec a b). split; [by eapply and_result|].
  split; [done|].
  intros k Hni. unfold Intersect_spec. rewrite elem_of_keys_entries. tauto.
Qed.

Lemma intersect_entries_in_order_witness :
  ∃ its,
    result_items (__and__ 0%nat (VRef 1%nat))
      [Obj COrderedCounter [("a", 2); ("b", -3); ("d", 1)]%char;
       Obj CCounter [("e", 4); ("b", 1); ("d", 2); ("f", -1)]%char]
    = Some its
    ∧ its = [("d", 1)]%char
    ∧ ∀ k, k ∉ keys [("a", 2); ("b", -3); ("d", 1)]%char → k ∉ keys its.
Proof.
  refine (intersect_entries_in_order ascii _
            [Obj COrderedCounter [("a", 2); ("b", -3); ("d", 1)]%char;
             Obj CCounter [("e", 4); ("b", 1); ("d", 2); ("f", -1)]%char]
            0%nat 1%nat CCounter
            [("a", 2); ("b", -3); ("d", 1)]%char
            [("e", 4); ("b", 1); ("d", 2); ("f", -1)]%char _ _ _).
  - split; [reflexivity | by apply (bool_decide_unpack _)].
  - split; [reflexivity | by apply (bool_decide_unpack _)].
  - reflexivity.
Defined.

(** C4.  SymmetricDifference(a, b) is the result of subtracting
    Intersect(a, b) from Union(a, b); on the strings "abbbc" and "bcc" it
    is [(a,1),(b,2),(c,1)]. *)
Theorem xor_is_union_minus_intersection :
  (∀ (K : Type) `(EqDecision K) (h : list object) (self other : loc)
     (co : class) (a b : list (K * Z)),
     dict_at h self COrderedCounter a → dict_at h other co b →
     issubclass co CCounter = true →
     ∃ u i x,
       result_items (__or__ self (VRef other)) h = Some u
       ∧ result_items (__and__ self (VRef other)) h = Some i
       ∧ result_items (__xor__ self (VRef other)) h = Some x
       ∧ x = Subtract_spec u i
       ∧ ∀ (h' : list object) lu li,
           h' !! lu = Some (Obj COrderedCounter u) →
           h' !! li = Some (Obj COrderedCounter i) →
           result_items (__sub__ lu (VRef li)) h' = Some x)
  ∧ on_strings __xor__ "abbbc" "bcc"
    = Some [("a", 1); ("b", 2); ("c", 1)]%char.
Proof.
  split; [|reflexivity].
  intros K ? h self other co a b Ha Hb Hc.
  exists (Union_spec a b), (Intersect_spec a b),
         (Subtract_spec (Union_spec a b) (Intersect_spec a b)).
  split; [by eapply or_result|]. split; [by eapply and_result|].
  split; [by eapply xor_result|]. split; [done|].
  intros h' lu li Hu Hi. destruct Ha as [_ Ha], Hb as [_ Hb].
  eapply sub_result; [split; [done|] ..|done].
  - by apply NoDup_Union_spec.
  - by apply NoDup_Intersect_spec.
Qed.

Lemma xor_is_union_minus_intersection_witness :
  ∃ u i x,
    result_items (__or__ 0%nat (VRef 1%nat))
      [Obj COrderedCounter [("a", 2); ("b", -3); ("d", 1)]%char;
       Obj CCounter [("e", 4); ("b", 1); ("d", 2); ("f", -1)]%char] = Some u
    ∧ result_items (__and__ 0%nat (VRef 1%nat))
      [Obj COrderedCounter [("a", 2); ("b", -3); ("d", 1)]%char;
       Obj CCounter [("e", 4); ("b", 1); ("d", 2); ("f", -1)]%char] = Some i
    ∧ result_items (__xor__ 0%nat (VRef 1%nat))
      [Obj COrderedCounter [("a", 2); ("b", -3); ("d", 1)]%char;
       Obj CCounter [("e", 4); ("b", 1); ("d", 2); ("f", -1)]%char] = Some x
    ∧ x = Subtract_spec u i
    ∧ ∀ (h' : list object) lu li,
        h' !! lu = Some (Obj COrderedCounter u) →
        h' !! li = Some (Obj COrderedCounter i) →
        result_items (__sub__ lu (VRef li)) h' = Some x.
Proof.
  refine (proj1 xor_is_union_minus_intersection ascii _
            [Obj COrderedCounter [("a", 2); ("b", -3); ("d", 1)]%char;
             Obj CCounter [("e", 4); ("b", 1); ("d", 2); ("f", -1)]%char]
            0%nat 1%nat CCounter
            [("a", 2); ("b", -3); ("d", 1)]%char
            [("e", 4); ("b", 1); ("d", 2); ("f", -1)]%char _ _ _).
  - split; [reflexivity | by apply (bool_decide_unpack _)].
  - split; [reflexivity | by apply (bool_decide_unpack _)].
  - reflexivity.
Defined.

(** C5.  Each binary operation answers NotImplemented exactly when its
    operand is no counter, and then nothing has been built: the store is
    as it was.  For an operand that is a counter it returns a new
    OrderedCounter instead. *)
Theorem not_implemented_iff_not_counter :
  ∀ (K : Type) `(EqDecision K) (op : binop) (h : list object) (self : loc)
    (other : value) (a : list (K * Z)),
    h !! self = Some (Obj COrderedCounter a) → valid h other →
    (is_counter h other = false →
       binop_method op self other h = Some (VNotImplemented, h))
    ∧ (is_counter h other = true →
       ∃ r its h', binop_method op self other h = Some (VRef r, h')
                   ∧ h' !! r = Some (Obj COrderedCounter its))
    ∧ ((∃ h', binop_method op self other h = Some (VNotImplemented, h'))
       ↔ is_counter h other = false).
Proof.
  intros K ? op h self other a Hs Hv.
  assert (Hyes : is_counter h other = true →
    ∃ r its h', binop_method op self other h = Some (VRef r, h')
                ∧ h' !! r = Some (Obj COrderedCounter its)).
  { intros (l & co & b & -> & Ho & Hc)%is_counter_ref.
    destruct (counter_run h op self l co a b Hs Ho Hc) as (n & rest & its & Hrun & Hn).
    exists (length h + n)%nat, its, (h ++ rest). split; [done|].
    by rewrite lookup_app_r, Nat.add_comm, Nat.add_sub by lia. }
  split; [by apply not_counter_run|]. split; [done|]. split.
  - intros [h' Hrun]. destruct (is_counter h other) eqn:Hc; [|done].
    destruct (Hyes eq_refl) as (r & its & h'' & Hrun' & _). congruence.
  - intros Hc. exists h. by apply not_counter_run.
Qed.

Lemma not_implemented_iff_not_counter_witness :
  binop_method SymmetricDifference 0%nat (VRef 1%nat)
    [Obj COrderedCounter [("a", 2); ("b", -3)]%char;
     Obj COrderedDict [("b", 1)]%char]
  = Some (VNotImplemented,
          [Obj COrderedCounter [("a", 2); ("b", -3)]%char;
           Obj COrderedDict [("b", 1)]%char])
  ∧ ∃ r its h',
      binop_method SymmetricDifference 0%nat (VRef 1%nat)
        [Obj COrderedCounter [("a", 2); ("b", -3)]%char;
         Obj CCounter [("b", 1)]%char]
      = Some (VRef r, h')
      ∧ h' !! r = Some (Obj COrderedCounter its).
Proof.
  split.
  - refine (proj1 (not_implemented_iff_not_counter ascii _ SymmetricDifference
              [Obj COrderedCounter [("a", 2); ("b", -3)]%char;
               Obj COrderedDict [("b", 1)]%char]
              0%nat (VRef 1%nat) [("a", 2); ("b", -3)]%char _ _) _).
    + reflexivity.
    + cbn. by eexists.
    + reflexivity.
  - refine (proj1 (proj2 (not_implemented_iff_not_counter ascii _
              SymmetricDifference
              [Obj COrderedCounter [("a", 2); ("b", -3)]%char;
               Obj CCounter [("b", 1)]%char]
              0%nat (VRef 1%nat) [("a", 2); ("b", -3)]%char _ _)) _).
    + reflexivity.
    + cbn. by eexists.
    + reflexivity.
Defined.

(** C10.  Every algebraic and unary operation returns a newly built
    instance and leaves the receiver and the operand, their entries and
    order, as they were. *)
Theorem operations_leave_operands_unchanged :
  ∀ (K : Type) `(EqDecision K) (h : list object) (self other : loc)
    (co : class) (a b : list (K * Z)),
    h !! self = Some (Obj COrderedCounter a) →
    h !! other = Some (Obj co b) →
    issubclass co CCounter = true →
    (∀ op, ∃ r h',
       binop_method op self (VRef other) h = Some (VRef r, h')
       ∧ h !! r = None ∧ is_Some (h' !! r)
       ∧ h' !! self = Some (Obj COrderedCounter a)
       ∧ h' !! other = Some (Obj co b)
       ∧ preserves h h')
    ∧ (∀ op, ∃ r h',
       unop_method op self h = Some (VRef r, h')
       ∧ h !! r = None ∧ is_Some (h' !! r)
       ∧ h' !! self = Some (Obj COrderedCounter a)
       ∧ preserves h h').
Proof.
  intros K ? h self other co a b Hs Ho Hc. split; intros op.
  - destruct (counter_run h op self other co a b Hs Ho Hc)
      as (n & rest & its & Hrun & Hn).
    destruct (returns_fresh_app _ _ _ _ Hrun (mk_is_Some _ _ Hn))
      as (r & h' & Hrun' & Hfresh & Hnew & Hpre).
    exists r, h'. repeat split; try done; by apply Hpre.
  - destruct (unary_run h op self _ a Hs) as [its Hrun].
    rewrite <-(Nat.add_0_r (length h)) in Hrun.
    destruct (returns_fresh_app _ _ 0%nat _ Hrun (mk_is_Some _ _ eq_refl))
      as (r & h' & Hrun' & Hfresh & Hnew & Hpre).
    exists r, h'. repeat split; try done; by apply Hpre.
Qed.

Lemma operations_leave_operands_unchanged_witness :
  (∀ op, ∃ r h',
     binop_method op 0%nat (VRef 0%nat)
       [Obj COrderedCounter [("a", 2); ("b", -3)]%char] = Some (VRef r, h')
     ∧ [Obj COrderedCounter [("a", 2); ("b", -3)]%char] !! r = None
     ∧ is_Some (h' !! r)
     ∧ h' !! 0%nat = Some (Obj COrderedCounter [("a", 2); ("b", -3)]%char)
     ∧ h' !! 0%nat = Some (Obj COrderedCounter [("a", 2); ("b", -3)]%char)
     ∧ preserves [Obj COrderedCounter [("a", 2); ("b", -3)]%char] h')
  ∧ (∀ op, ∃ r h',
     unop_method op 0%nat
       [Obj COrderedCounter [("a", 2); ("b", -3)]%char] = Some (VRef r, h')
     ∧ [Obj COrderedCounter [("a", 2); ("b", -3)]%char] !! r = None
     ∧ is_Some (h' !! r)
     ∧ h' !! 0%nat = Some (Obj COrderedCounter [("a", 2); ("b", -3)]%char)
     ∧ preserves [Obj COrderedCounter [("a", 2); ("b", -3)]%char] h').
Proof.
  refine (operations_leave_operands_unchanged ascii _
            [Obj COrderedCounter [("a", 2); ("b", -3)]%char]
            0%nat 0%nat COrderedCounter
            [("a", 2); ("b", -3)]%char [("a", 2); ("b", -3)]%char _ _ _).
  - reflexivity.
  - reflexivity.
  - reflexivity.
Defined.

(** C6.  Reducing a counter to its class and its ordered key-count pairs
    and reconstructing from them yields a new instance with the same
    entries in the same iteration order; the representation shows the
    class name and the same ordered pairs. *)
Theorem reduce_round_trip :
  ∀ (K : Type) `(EqDecision K) (h : list object) (self : loc)
    (d : list (K * Z)),
    dict_at h self COrderedCounter d →
    (∃ r h',
       rebuild self h = Some (r, h')
       ∧ h !! r = None
       ∧ h' !! r = Some (Obj COrderedCounter d)
       ∧ h' !! self = Some (Obj COrderedCounter d)
       ∧ items r h' = Some (d, h')
       ∧ order r h' = Some (keys d, h'))
    ∧ (∃ shown h',
       __repr__ self h = Some (("OrderedCounter"%string, shown), h')
       ∧ h' !! shown = Some (Obj COrderedDict d)).
Proof.
  intros K ? h self d [Hs Hd]. split.
  - exists (S (length h)), (h ++ [Obj COrderedDict d; Obj COrderedCounter d]).
    assert (Hr : (h ++ [Obj COrderedDict d; Obj COrderedCounter d])
                   !! S (length h)
                 = Some (Obj COrderedCounter d)).
    { rewrite lookup_app_r by lia.
      by replace (S (length h) - length h)%nat with 1%nat by lia. }
    split; [by apply rebuild_run|].
    split; [apply lookup_ge_None; lia|].
    split; [done|]. split; [by apply lookup_app_l_Some|].
    split; [by rewrite (items_run _ _ _ Hr)|].
    unfold order. by rewrite (bind_run _ _ _ _ _ (items_run _ _ _ Hr)).
  - exists (length h), (h ++ [Obj COrderedDict d]).
    split; [by apply repr_run | apply lookup_last].
Qed.

Lemma reduce_round_trip_witness :
  (∃ r h',
     rebuild 0%nat [Obj COrderedCounter [("b", 2); ("a", -1); ("c", 0)]%char]
     = Some (r, h')
     ∧ [Obj COrderedCounter [("b", 2); ("a", -1); ("c", 0)]%char] !! r = None
     ∧ h' !! r = Some (Obj COrderedCounter [("b", 2); ("a", -1); ("c", 0)]%char)
     ∧ h' !! 0%nat
       = Some (Obj COrderedCounter [("b", 2); ("a", -1); ("c", 0)]%char)
     ∧ items r h' = Some ([("b", 2); ("a", -1); ("c", 0)]%char, h')
     ∧ order r h' = Some (keys [("b", 2); ("a", -1); ("c", 0)]%char, h'))
  ∧ (∃ shown h',
     __repr__ 0%nat [Obj COrderedCounter [("b", 2); ("a", -1); ("c", 0)]%char]
     = Some (("OrderedCounter"%string, shown), h')
     ∧ h' !! shown
       = Some (Obj COrderedDict [("b", 2); ("a", -1); ("c", 0)]%char)).
Proof.
  refine (reduce_round_trip ascii _
            [Obj COrderedCounter [("b", 2); ("a", -1); ("c", 0)]%char]
            0%nat [("b", 2); ("a", -1); ("c", 0)]%char _).
  split; [reflexivity | by apply (bool_decide_unpack _)].
Defined.

(** C8.  Add(a, empty) returns an instance with the entries and the order
    of Positive(a), which keeps the strictly positive entries of a in a's
    order. *)
Theorem add_empty_is_positive :
  ∀ (K : Type) `(EqDecision K) (h : list object) (self other : loc)
    (co : class) (a : list (K * Z)),
    dict_at h self COrderedCounter a →
    h !! other = Some (Obj co []) → issubclass co CCounter = true →
    ∃ its,
      result_items (__add__ self (VRef other)) h = Some its
      ∧ result_items (e <- OrderedCounter SrcNone ;; __add__ self (VRef e)) h
        = Some its
      ∧ result_items (__pos__ self) h = Some its
      ∧ its = Positive_spec a.
Proof.
  intros K ? h self other co a [Hs Ha] Ho Hc.
  exists (Positive_spec a).
  assert (Hpos : pos_items a = Positive_spec a) by by apply pos_items_spec.
  split.
  { rewrite (result_items_last _ _ _ (add_run _ _ _ _ _ _ _ Hs Ho Hc)).
    cbn [ob_items]. by rewrite add_items_empty, Hpos. }
  split.
  { unfold result_items. rewrite (bind_run _ _ _ _ _ (new_empty_run h)).
    erewrite add_run;
      [|by apply lookup_old|apply lookup_last|done].
    rewrite lookup_last. cbn [fmap option_fmap option_map ob_items].
    by rewrite add_items_empty, Hpos. }
  split; [|done]. by apply (pos_result h self COrderedCounter).
Qed.

Lemma add_empty_is_positive_witness :
  ∃ its,
    result_items (__add__ 0%nat (VRef 1%nat))
      [Obj COrderedCounter [("b", 2); ("a", -1); ("c", 0); ("d", 5)]%char;
       Obj CCounter []] = Some its
    ∧ result_items (e <- OrderedCounter SrcNone ;; __add__ 0%nat (VRef e))
        [Obj COrderedCounter [("b", 2); ("a", -1); ("c", 0); ("d", 5)]%char;
         Obj CCounter []] = Some its
    ∧ result_items (__pos__ 0%nat)
        [Obj COrderedCounter [("b", 2); ("a", -1); ("c", 0); ("d", 5)]%char;
         Obj CCounter []] = Some its
    ∧ its = [("b", 2); ("d", 5)]%char.
Proof.
  refine (add_empty_is_positive ascii _
            [Obj COrderedCounter [("b", 2); ("a", -1); ("c", 0); ("d", 5)]%char;
             Obj CCounter []]
            0%nat 1%nat CCounter
            [("b", 2); ("a", -1); ("c", 0); ("d", 5)]%char _ _ _).
  - split; [reflexivity | by apply (bool_decide_unpack _)].
  - reflexivity.
  - reflexivity.
Defined.

(** C9.  For counters a and b whose counts are all nonnegative, Union(a, b)
    and Add(Intersect(a, b), SymmetricDifference(a, b)) hold the same
    key-count pairs; their iteration orders may differ. *)
Theorem union_is_intersection_plus_difference :
  ∀ (K : Type) `(EqDecision K) (h : list object) (self other : loc)
    (co : class) (a b : list (K * Z)),
    dict_at h self COrderedCounter a → dict_at h other co b →
    issubclass co CCounter = true →
    Forall (λ kc, 0 ≤ kc.2) a → Forall (λ kc, 0 ≤ kc.2) b →
    ∃ u w,
      result_items (__or__ self (VRef other)) h = Some u
      ∧ result_items (and_plus_xor self (VRef other)) h = Some w
      ∧ u ≡ₚ w
      ∧ ∀ k, count_of u k = count_of w k.
Proof.
  intros K ? h self other co a b Ha Hb Hc _ _.
  exists (Union_spec a b),
         (Add_spec (Intersect_spec a b)
            (Subtract_spec (Union_spec a b) (Intersect_spec a b))).
  split; [by eapply or_result|]. split; [by eapply and_plus_xor_result|].
  destruct Ha as [_ Ha], Hb as [_ Hb].
  split; [|intros k; symmetry; apply union_counts].
  apply same_counts_Permutation.
  - by apply NoDup_Union_spec.
  - apply NoDup_Add_spec; [by apply NoDup_Intersect_spec|].
    apply NoDup_Subtract_spec;
      [by apply NoDup_Union_spec | by apply NoDup_Intersect_spec].
  - apply positive_Union_spec.
  - apply positive_Add_spec.
  - intros k. symmetry. apply union_counts.
Qed.

Lemma union_is_intersection_plus_difference_witness :
  ∃ u w,
    result_items (__or__ 0%nat (VRef 1%nat))
      [Obj COrderedCounter [("a", 1); ("b", 1)]%char;
       Obj COrderedCounter [("b", 1)]%char] = Some u
    ∧ result_items (and_plus_xor 0%nat (VRef 1%nat))
      [Obj COrderedCounter [("a", 1); ("b", 1)]%char;
       Obj COrderedCounter [("b", 1)]%char] = Some w
    ∧ u ≡ₚ w
    ∧ ∀ k, count_of u k = count_of w k.
Proof.
  refine (union_is_intersection_plus_difference ascii _
            [Obj COrderedCounter [("a", 1); ("b", 1)]%char;
             Obj COrderedCounter [("b", 1)]%char]
            0%nat 1%nat COrderedCounter
            [("a", 1); ("b", 1)]%char [("b", 1)]%char _ _ _ _ _).
  - split; [reflexivity | by apply (bool_decide_unpack _)].
  - split; [reflexivity | by apply (bool_decide_unpack _)].
  - reflexivity.
  - by apply (bool_decide_unpack _).
  - by apply (bool_decide_unpack _).
Defined.

(** The two sides of C9 need not iterate in the same order:
    [OrderedCounter('ab') | OrderedCounter('b')] lists a before b, the sum
    of the intersection and the symmetric difference b before a. *)
Example union_order_differs :
  on_strings __or__ "ab" "b" = Some [("a", 1); ("b", 1)]%char
  ∧ on_strings and_plus_xor "ab" "b" = Some [("b", 1); ("a", 1)]%char.
Proof. split; reflexivity. Qed.

(** * Order of iteration *)

(** C7, as amended.  After a construction and any sequence of increments,
    sets and deletes, the iteration order is the order in which each key
    present was first seen since it was last deleted; without deletes that
    is the order in which each distinct key was first seen.  Incrementing
    or overwriting the count of a key that is present never changes the
    order. *)
Theorem order_is_first_seen_since_deletion :
  ∀ (K : Type) `(EqDecision K),
    (∀ (h : list object) (src : source) (ms : list mutation) (ks : list K),
       source_keys h src = Some ks →
       fst <$> life src ms h
       = Some (first_seen
                 (since_deletion ((Seen <$> ks) ++ (event_of <$> ms)))))
    ∧ (∀ (h : list object) (src : source) (ms : list mutation) (ks : list K),
         source_keys h src = Some ks → (∀ k, Delete k ∉ ms) →
         fst <$> life src ms h
         = Some (first_seen (ks ++ written (event_of <$> ms))))
    ∧ (∀ (h : list object) (c : loc) cls (d : list (K * Z)) m k,
         h !! c = Some (Obj cls d) → k ∈ keys d → event_of m = Seen k →
         fst <$> (mutate c m ;; order c) h = Some (keys d)).
Proof.
  intros K ?. split; [|split].
  - intros h src ms ks Hsrc.
    destruct (life_run h src ms ks Hsrc) as [h' Hlife]. by rewrite Hlife.
  - intros h src ms ks Hsrc Hno.
    destruct (life_run h src ms ks Hsrc) as [h' Hlife].
    rewrite Hlife. cbn. do 2 f_equal.
    rewrite since_deletion_no_Gone by by apply no_Delete_no_Gone.
    by rewrite written_app, written_Seen.
  - intros h c cls d m k Hc Hk Hm.
    destruct (write_present_run h c cls d m k Hc Hk Hm) as [h'' Hrun].
    by rewrite Hrun.
Qed.

Lemma order_is_first_seen_since_deletion_witness :
  fst <$> life (chars "abca")
            [Increment "b" 2; Delete "a"; SetCount "d" 0; Increment "a" 1]%char []
  = Some ["b"; "c"; "d"; "a"]%char
  ∧ fst <$> life (SrcMapping 0%nat)
              [Increment "c" 1; SetCount "b" 7; Increment "a" (-1)]%char
              [Obj COrderedDict [("b", 0); ("a", 3)]%char]
    = Some ["b"; "a"; "c"]%char
  ∧ fst <$> (mutate 0%nat (Increment "b"%char 5) ;; order 0%nat)
              [Obj COrderedCounter [("b", 0); ("a", 3)]%char]
    = Some ["b"; "a"]%char.
Proof.
  pose proof (order_is_first_seen_since_deletion ascii _) as (HA & HB & HC).
  split; [|split].
  - refine (HA [] (chars "abca")
              [Increment "b" 2; Delete "a"; SetCount "d" 0; Increment "a" 1]%char
              (list_ascii_of_string "abca") _).
    reflexivity.
  - refine (HB [Obj COrderedDict [("b", 0); ("a", 3)]%char] (SrcMapping 0%nat)
              [Increment "c" 1; SetCount "b" 7; Increment "a" (-1)]%char
              ["b"; "a"]%char _ _).
    + reflexivity.
    + intros k Hin. by repeat (apply elem_of_cons in Hin as [?|Hin]; [done|]);
        apply elem_of_nil in Hin.
  - refine (HC [Obj COrderedCounter [("b", 0); ("a", 3)]%char] 0%nat
              COrderedCounter [("b", 0); ("a", 3)]%char
              (Increment "b"%char 5) "b"%char _ _ _).
    + reflexivity.
    + left.
    + reflexivity.
Defined.

(** C7, as stated, fails once a key is deleted and written again: the key
    comes back at the end, behind keys first seen after it. *)
Lemma first_seen_order_broken_by_delete :
  fst <$> life (chars "ab") [Delete "a"; Increment "a" 1]%char []
  = Some ["b"; "a"]%char
  ∧ first_seen (list_ascii_of_string "ab"
                ++ written (event_of <$> [Delete "a"; Increment "a" 1]%char))
    = ["a"; "b"]%char
  ∧ fst <$> life (chars "ab") [Delete "a"; Increment "a" 1]%char []
    ≠ Some (first_seen
              (list_ascii_of_string "ab"
               ++ written (event_of <$> [Delete "a"; Increment "a" 1]%char))).
Proof. split; [reflexivity|]. split; [reflexivity|]. by vm_compute. Qed.

(** * More about the operations *)

(** X1.  [a | b] holds, for each key of a in a's order, the larger of
    a[key] and b[key] if that is strictly positive, followed by each key
    of b absent from a, in b's order, whose count is strictly positive;
    on the strings "abbbd" and "bcc" the result is
    [(a,1),(b,3),(d,1),(c,2)]. *)
Theorem union_entries_in_order :
  (∀ (K : Type) `(EqDecision K) (h : list object) (self other : loc)
     (co : class) (a b : list (K * Z)),
     dict_at h self COrderedCounter a → dict_at h other co b →
     issubclass co CCounter = true →
     result_items (__or__ self (VRef other)) h = Some (Union_spec a b))
  ∧ on_strings __or__ "abbbd" "bcc"
    = Some [("a", 1); ("b", 3); ("d", 1); ("c", 2)]%char.
Proof.
  split; [|reflexivity].
  intros K ? h self other co a b. apply or_result.
Qed.

Lemma union_entries_in_order_witness :
  result_items (__or__ 0%nat (VRef 1%nat))
    [Obj COrderedCounter [("a", 2); ("b", -3); ("d", 1)]%char;
     Obj CCounter [("e", 4); ("b", 1); ("d", 2); ("f", -1)]%char]
  = Some [("a", 2); ("b", 1); ("d", 2); ("e", 4)]%char.
Proof.
  refine (proj1 union_entries_in_order ascii _
            [Obj COrderedCounter [("a", 2); ("b", -3); ("d", 1)]%char;
             Obj CCounter [("e", 4); ("b", 1); ("d", 2); ("f", -1)]%char]
            0%nat 1%nat CCounter
            [("a", 2); ("b", -3); ("d", 1)]%char
            [("e", 4); ("b", 1); ("d", 2); ("f", -1)]%char _ _ _).
  - split; [reflexivity | by apply (bool_decide_unpack _)].
  - split; [reflexivity | by apply (bool_decide_unpack _)].
  - reflexivity.
Defined.

(** X2.  [-a] holds exactly the entries of a with a negative count, in
    a's order, each with the sign of its count flipped. *)
Theorem negate_entries_in_order :
  ∀ (K : Type) `(EqDecision K) (h : list object) (self : loc)
    (a : list (K * Z)),
    dict_at h self COrderedCounter a →
    result_items (__neg__ self) h = Some (Negate_spec a).
Proof. intros K ? h self a. apply neg_result. Qed.

Lemma negate_entries_in_order_witness :
  result_items (__neg__ 0%nat)
    [Obj COrderedCounter [("a", 2); ("b", -3); ("c", 0); ("d", -1)]%char]
  = Some [("b", 3); ("d", 1)]%char.
Proof.
  refine (negate_entries_in_order ascii _
            [Obj COrderedCounter [("a", 2); ("b", -3); ("c", 0); ("d", -1)]%char]
            0%nat [("a", 2); ("b", -3); ("c", 0); ("d", -1)]%char _).
  split; [reflexivity | by apply (bool_decide_unpack _)].
Defined.

(** X3.  What any of the seven operations returns has pairwise distinct
    keys and only strictly positive counts, whatever counts the operands
    hold. *)
Theorem results_distinct_and_positive :
  ∀ (K : Type) `(EqDecision K) (h : list object) (self other : loc)
    (co : class) (a b : list (K * Z)),
    dict_at h self COrderedCounter a → dict_at h other co b →
    issubclass co CCounter = true →
    (∀ op, ∃ its,
       result_items (binop_method op self (VRef other)) h = Some its
       ∧ NoDup (keys its) ∧ Forall (λ kc, 0 < kc.2) its)
    ∧ (∀ u, ∃ its,
       result_items (unop_method u self) h = Some its
       ∧ NoDup (keys its) ∧ Forall (λ kc, 0 < kc.2) its).
Proof.
  intros K ? h self other co a b Ha Hb Hc. split.
  - intros op. exists (binop_spec op a b).
    split; [by eapply binop_result|].
    destruct Ha as [_ Ha], Hb as [_ Hb].
    split; [by apply NoDup_binop_spec|].
    apply Forall_positive. apply positive_binop_spec.
  - intros u. eexists. split; [by eapply unop_result|].
    destruct Ha as [_ Ha]. destruct u.
    + split; [by apply NoDup_Positive_spec|].
      apply Forall_positive, positive_Positive_spec.
    + split; [by apply NoDup_Negate_spec|].
      apply Forall_positive, positive_Negate_spec.
Qed.

Lemma results_distinct_and_positive_witness :
  (∀ op, ∃ its,
     result_items (binop_method op 0%nat (VRef 1%nat))
       [Obj COrderedCounter [("a", 2); ("b", -3); ("d", 1)]%char;
        Obj CCounter [("e", 4); ("b", 1); ("d", 2); ("f", -1)]%char]
     = Some its
     ∧ NoDup (keys its) ∧ Forall (λ kc, 0 < kc.2) its)
  ∧ (∀ u, ∃ its,
     result_items (unop_method u 0%nat)
       [Obj COrderedCounter [("a", 2); ("b", -3); ("d", 1)]%char;
        Obj CCounter [("e", 4); ("b", 1); ("d", 2); ("f", -1)]%char]
     = Some its
     ∧ NoDup (keys its) ∧ Forall (λ kc, 0 < kc.2) its).
Proof.
  refine (results_distinct_and_positive ascii _
            [Obj COrderedCounter [("a", 2); ("b", -3); ("d", 1)]%char;
             Obj CCounter [("e", 4); ("b", 1); ("d", 2); ("f", -1)]%char]
            0%nat 1%nat CCounter
            [("a", 2); ("b", -3); ("d", 1)]%char
            [("e", 4); ("b", 1); ("d", 2); ("f", -1)]%char _ _ _).
  - split; [reflexivity | by apply (bool_decide_unpack _)].
  - split; [reflexivity | by apply (bool_decide_unpack _)].
  - reflexivity.
Defined.

(** X4.  Looking a key up in the result of a binary operation gives, for
    every key (also one neither operand has): max(0, a[k] + b[k]) for
    [+], max(0, a[k] - b[k]) for [-], max(0, max(a[k], b[k])) for [|],
    max(0, min(a[k], b[k])) for [&], and for [^] the count of the union
    less that of the intersection, where a missing key counts 0. *)
Theorem lookup_in_result :
  ∀ (K : Type) `(EqDecision K) (h : list object) (self other : loc)
    (co : class) (a b : list (K * Z)) (op : binop) (k : K),
    dict_at h self COrderedCounter a → dict_at h other co b →
    issubclass co CCounter = true →
    fst <$> (r <- binop_method op self (VRef other) ;;
             l <- as_ref r ;;
             getitem l k) h
    = Some (binop_count op (count_of a k) (count_of b k)).
Proof.
  intros K ? h self other co a b op k [Hs Ha] [Ho Hb] Hc.
  destruct (binop_run h op self other co a b Hs Ho Hc) as (n & rest & Hrun & Hn).
  rewrite (bind_run _ _ _ _ _ Hrun). cbn [as_ref].
  erewrite bind_run by done.
  erewrite getitem_run by (by rewrite lookup_app_plus).
  cbn [ob_items]. by rewrite binop_items_spec, count_of_binop_spec.
Qed.

Lemma lookup_in_result_witness :
  fst <$> (r <- binop_method Subtract 0%nat (VRef 1%nat) ;;
           l <- as_ref r ;;
           getitem l "f"%char)
    [Obj COrderedCounter [("a", 2); ("b", -3); ("d", 1)]%char;
     Obj CCounter [("e", 4); ("b", 1); ("d", 2); ("f", -1)]%char]
  = Some 1.
Proof.
  refine (lookup_in_result ascii _
            [Obj COrderedCounter [("a", 2); ("b", -3); ("d", 1)]%char;
             Obj CCounter [("e", 4); ("b", 1); ("d", 2); ("f", -1)]%char]
            0%nat 1%nat CCounter
            [("a", 2); ("b", -3); ("d", 1)]%char
            [("e", 4); ("b", 1); ("d", 2); ("f", -1)]%char
            Subtract "f"%char _ _ _).
  - split; [reflexivity | by apply (bool_decide_unpack _)].
  - split; [reflexivity | by apply (bool_decide_unpack _)].
  - reflexivity.
Defined.

(** X5.  An operand combined with itself: [a - a] and [a ^ a] are empty,
    [a | a] and [a & a] are the positive entries of a in a's order, and
    [a + a] is those entries with their counts doubled. *)
Theorem operand_with_itself :
  ∀ (K : Type) `(EqDecision K) (h : list object) (self : loc)
    (a : list (K * Z)),
    dict_at h self COrderedCounter a →
    result_items (__sub__ self (VRef self)) h = Some []
    ∧ result_items (__xor__ self (VRef self)) h = Some []
    ∧ result_items (__or__ self (VRef self)) h = Some (Positive_spec a)
    ∧ result_items (__and__ self (VRef self)) h = Some (Positive_spec a)
    ∧ result_items (__add__ self (VRef self)) h
      = Some ((λ kc, (kc.1, 2 * kc.2)) <$> Positive_spec a).
Proof.
  intros K ? h self a Ha. pose proof Ha as [_ Hnd].
  split; [|split; [|split; [|split]]].
  - erewrite sub_result by done. by rewrite Subtract_spec_self.
  - erewrite xor_result by done.
    rewrite Union_spec_self, Intersect_spec_self by done.
    by rewrite Subtract_spec_self by by apply NoDup_Positive_spec.
  - erewrite or_result by done. by rewrite Union_spec_self.
  - erewrite and_result by done. by rewrite Intersect_spec_self.
  - erewrite add_result by done. by rewrite Add_spec_self.
Qed.

Lemma operand_with_itself_witness :
  result_items (__sub__ 0%nat (VRef 0%nat))
    [Obj COrderedCounter [("a", 2); ("b", -3); ("d", 1)]%char] = Some []
  ∧ result_items (__xor__ 0%nat (VRef 0%nat))
    [Obj COrderedCounter [("a", 2); ("b", -3); ("d", 1)]%char] = Some []
  ∧ result_items (__or__ 0%nat (VRef 0%nat))
    [Obj COrderedCounter [("a", 2); ("b", -3); ("d", 1)]%char]
    = Some [("a", 2); ("d", 1)]%char
  ∧ result_items (__and__ 0%nat (VRef 0%nat))
    [Obj COrderedCounter [("a", 2); ("b", -3); ("d", 1)]%char]
    = Some [("a", 2); ("d", 1)]%char
  ∧ result_items (__add__ 0%nat (VRef 0%nat))
    [Obj COrderedCounter [("a", 2); ("b", -3); ("d", 1)]%char]
    = Some [("a", 4); ("d", 2)]%char.
Proof.
  refine (operand_with_itself ascii _
            [Obj COrderedCounter [("a", 2); ("b", -3); ("d", 1)]%char]
            0%nat [("a", 2); ("b", -3); ("d", 1)]%char _).
  split; [reflexivity | by apply (bool_decide_unpack _)].
Defined.

(** X6.  With an empty right operand, [a - b], [a | b] and [a ^ b] are the
    positive entries of a in a's order, and [a & b] is empty. *)
Theorem empty_right_operand :
  ∀ (K : Type) `(EqDecision K) (h : list object) (self other : loc)
    (co : class) (a : list (K * Z)),
    dict_at h self COrderedCounter a →
    h !! other = Some (Obj co []) → issubclass co CCounter = true →
    result_items (__sub__ self (VRef other)) h = Some (Positive_spec a)
    ∧ result_items (__or__ self (VRef other)) h = Some (Positive_spec a)
    ∧ result_items (__xor__ self (VRef other)) h = Some (Positive_spec a)
    ∧ result_items (__and__ self (VRef other)) h = Some [].
Proof.
  intros K ? h self other co a Ha Ho Hc. pose proof Ha as [_ Hnd].
  assert (Hb : dict_at h other co []) by (split; [done | constructor]).
  split; [|split; [|split]].
  - erewrite sub_result by done. by rewrite Subtract_spec_nil_r.
  - erewrite or_result by done. by rewrite Union_spec_nil_r.
  - erewrite xor_result by done.
    rewrite Intersect_spec_nil_r, Union_spec_nil_r by done.
    rewrite Subtract_spec_nil_r by by apply NoDup_Positive_spec.
    by rewrite Positive_spec_fixed by apply positive_Positive_spec.
  - erewrite and_result by done. by rewrite Intersect_spec_nil_r.
Qed.

Lemma empty_right_operand_witness :
  result_items (__sub__ 0%nat (VRef 1%nat))
    [Obj COrderedCounter [("a", 2); ("b", -3); ("d", 1)]%char; Obj CCounter []]
  = Some [("a", 2); ("d", 1)]%char
  ∧ result_items (__or__ 0%nat (VRef 1%nat))
    [Obj COrderedCounter [("a", 2); ("b", -3); ("d", 1)]%char; Obj CCounter []]
    = Some [("a", 2); ("d", 1)]%char
  ∧ result_items (__xor__ 0%nat (VRef 1%nat))
    [Obj COrderedCounter [("a", 2); ("b", -3); ("d", 1)]%char; Obj CCounter []]
    = Some [("a", 2); ("d", 1)]%char
  ∧ result_items (__and__ 0%nat (VRef 1%nat))
    [Obj COrderedCounter [("a", 2); ("b", -3); ("d", 1)]%char; Obj CCounter []]
    = Some [].
Proof.
  refine (empty_right_operand ascii _
            [Obj COrderedCounter [("a", 2); ("b", -3); ("d", 1)]%char;
             Obj CCounter []]
            0%nat 1%nat CCounter [("a", 2); ("b", -3); ("d", 1)]%char _ _ _).
  - split; [reflexivity | by apply (bool_decide_unpack _)].
  - reflexivity.
  - reflexivity.
Defined.

(** X7.  [-a] is what subtracting a from a new, empty OrderedCounter
    returns, as the docstring of [__neg__] says. *)
Theorem negate_is_subtraction_from_empty :
  ∀ (K : Type) `(EqDecision K) (h : list object) (self : loc)
    (a : list (K * Z)),
    dict_at h self COrderedCounter a →
    ∃ its,
      result_items (__neg__ self) h = Some its
      ∧ result_items (e <- OrderedCounter SrcNone ;; __sub__ e (VRef self)) h
        = Some its.
Proof.
  intros K ? h self a [Hs Ha]. exists (Negate_spec a).
  split; [by eapply neg_result|].
  unfold result_items. rewrite (bind_run _ _ _ _ _ (new_empty_run h)).
  erewrite sub_run; [|apply lookup_last | by apply lookup_old | done].
  rewrite lookup_last. cbn [fmap option_fmap option_map ob_items].
  rewrite sub_items_spec; [|constructor|done].
  by rewrite Subtract_spec_nil_l.
Qed.

Lemma negate_is_subtraction_from_empty_witness :
  ∃ its,
    result_items (__neg__ 0%nat)
      [Obj COrderedCounter [("a", 2); ("b", -3); ("c", 0); ("d", -1)]%char]
    = Some its
    ∧ result_items (e <- OrderedCounter SrcNone ;; __sub__ e (VRef 0%nat))
      [Obj COrderedCounter [("a", 2); ("b", -3); ("c", 0); ("d", -1)]%char]
      = Some its.
Proof.
  refine (negate_is_subtraction_from_empty ascii _
            [Obj COrderedCounter [("a", 2); ("b", -3); ("c", 0); ("d", -1)]%char]
            0%nat [("a", 2); ("b", -3); ("c", 0); ("d", -1)]%char _).
  split; [reflexivity | by apply (bool_decide_unpack _)].
Defined.

(** X8.  With an empty receiver, [a + b], [a | b] and [a ^ b] are the
    positive entries of b in b's order, [a - b] is the negative entries of
    b with the sign flipped, and [a & b] is empty. *)
Theorem empty_receiver :
  ∀ (K : Type) `(EqDecision K) (h : list object) (self other : loc)
    (co : class) (b : list (K * Z)),
    h !! self = Some (Obj COrderedCounter []) →
    dict_at h other co b → issubclass co CCounter = true →
    result_items (__add__ self (VRef other)) h = Some (Positive_spec b)
    ∧ result_items (__or__ self (VRef other)) h = Some (Positive_spec b)
    ∧ result_items (__xor__ self (VRef other)) h = Some (Positive_spec b)
    ∧ result_items (__sub__ self (VRef other)) h = Some (Negate_spec b)
    ∧ result_items (__and__ self (VRef other)) h = Some [].
Proof.
  intros K ? h self other co b Hs Hb Hc. pose proof Hb as [_ Hnd].
  assert (Ha : dict_at h self COrderedCounter []) by (split; [done | constructor]).
  split; [|split; [|split; [|split]]].
  - erewrite add_result by done. by rewrite Add_spec_nil_l.
  - erewrite or_result by done. by rewrite Union_spec_nil_l.
  - erewrite xor_result by done.
    rewrite Intersect_spec_nil_l, Union_spec_nil_l by done.
    rewrite Subtract_spec_nil_r by by apply NoDup_Positive_spec.
    by rewrite Positive_spec_fixed by apply positive_Positive_spec.
  - erewrite sub_result by done. by rewrite Subtract_spec_nil_l.
  - erewrite and_result by done. done.
Qed.

Lemma empty_receiver_witness :
  result_items (__add__ 0%nat (VRef 1%nat))
    [Obj COrderedCounter []; Obj CCounter [("e", 4); ("b", -1); ("d", 2)]%char]
  = Some [("e", 4); ("d", 2)]%char
  ∧ result_items (__or__ 0%nat (VRef 1%nat))
    [Obj COrderedCounter []; Obj CCounter [("e", 4); ("b", -1); ("d", 2)]%char]
    = Some [("e", 4); ("d", 2)]%char
  ∧ result_items (__xor__ 0%nat (VRef 1%nat))
    [Obj COrderedCounter []; Obj CCounter [("e", 4); ("b", -1); ("d", 2)]%char]
    = Some [("e", 4); ("d", 2)]%char
  ∧ result_items (__sub__ 0%nat (VRef 1%nat))
    [Obj COrderedCounter []; Obj CCounter [("e", 4); ("b", -1); ("d", 2)]%char]
    = Some [("b", 1)]%char
  ∧ result_items (__and__ 0%nat (VRef 1%nat))
    [Obj COrderedCounter []; Obj CCounter [("e", 4); ("b", -1); ("d", 2)]%char]
    = Some [].
Proof.
  refine (empty_receiver ascii _
            [Obj COrderedCounter [];
             Obj CCounter [("e", 4); ("b", -1); ("d", 2)]%char]
            0%nat 1%nat CCounter [("e", 4); ("b", -1); ("d", 2)]%char _ _ _).
  - reflexivity.
  - split; [reflexivity | by apply (bool_decide_unpack _)].
  - reflexivity.
Defined.

(** X9.  [+], [|], [&] and [^] are commutative up to the order of the
    entries: with the operands swapped the result holds the same
    key-count pairs. *)
Theorem commutative_up_to_order :
  ∀ (K : Type) `(EqDecision K) (h : list object) (x y : loc)
    (a b : list (K * Z)) (op : binop),
    dict_at h x COrderedCounter a → dict_at h y COrderedCounter b →
    op ≠ Subtract →
    ∃ l r,
      result_items (binop_method op x (VRef y)) h = Some l
      ∧ result_items (binop_method op y (VRef x)) h = Some r
      ∧ l ≡ₚ r.
Proof.
  intros K ? h x y a b op Ha Hb Hop.
  exists (binop_spec op a b), (binop_spec op b a).
  split; [by eapply binop_result|]. split; [by eapply binop_result|].
  destruct Ha as [_ Ha], Hb as [_ Hb].
  apply same_counts_Permutation.
  - by apply NoDup_binop_spec.
  - by apply NoDup_binop_spec.
  - apply positive_binop_spec.
  - apply positive_binop_spec.
  - intros k. rewrite !count_of_binop_spec.
    destruct op; cbn [binop_count]; try done; lia.
Qed.

Lemma commutative_up_to_order_witness :
  ∃ l r,
    result_items (binop_method Add 0%nat (VRef 1%nat))
      [Obj COrderedCounter [("a", 2); ("b", -3); ("d", 1)]%char;
       Obj COrderedCounter [("e", 4); ("b", 1); ("d", 2); ("f", -1)]%char]
    = Some l
    ∧ result_items (binop_method Add 1%nat (VRef 0%nat))
      [Obj COrderedCounter [("a", 2); ("b", -3); ("d", 1)]%char;
       Obj COrderedCounter [("e", 4); ("b", 1); ("d", 2); ("f", -1)]%char]
      = Some r
    ∧ l ≡ₚ r.
Proof.
  refine (commutative_up_to_order ascii _
            [Obj COrderedCounter [("a", 2); ("b", -3); ("d", 1)]%char;
             Obj COrderedCounter [("e", 4); ("b", 1); ("d", 2); ("f", -1)]%char]
            0%nat 1%nat
            [("a", 2); ("b", -3); ("d", 1)]%char
            [("e", 4); ("b", 1); ("d", 2); ("f", -1)]%char Add _ _ _).
  - split; [reflexivity | by apply (bool_decide_unpack _)].
  - split; [reflexivity | by apply (bool_decide_unpack _)].
  - discriminate.
Defined.

(** X10.  Results are already stripped: applying unary [+] to what any of
    the seven operations returns gives the same entries in the same order,
    and applying unary [-] to it gives an empty counter. *)
Theorem unary_after_operation :
  ∀ (K : Type) `(EqDecision K) (h : list object) (self other : loc)
    (co : class) (a b : list (K * Z)),
    dict_at h self COrderedCounter a → dict_at h other co b →
    issubclass co CCounter = true →
    (∀ op, ∃ its,
       result_items (binop_method op self (VRef other)) h = Some its
       ∧ result_items
           (then_unary Positive (binop_method op self (VRef other))) h
         = Some its
       ∧ result_items
           (then_unary Negate (binop_method op self (VRef other))) h
         = Some [])
    ∧ (∀ u, ∃ its,
       result_items (unop_method u self) h = Some its
       ∧ result_items (then_unary Positive (unop_method u self)) h = Some its
       ∧ result_items (then_unary Negate (unop_method u self)) h = Some []).
Proof.
  intros K ? h self other co a b Ha Hb Hc. split.
  - intros op. exists (binop_spec op a b).
    split; [by eapply binop_result|].
    destruct Ha as [Hs Ha], Hb as [Ho Hb].
    destruct (binop_run h op self other co a b Hs Ho Hc)
      as (n & rest & Hrun & Hn).
    rewrite binop_items_spec in Hn by done.
    pose proof (NoDup_binop_spec op a b Ha Hb) as Hnd.
    rewrite (then_unary_result h Positive _ _ _ _ _ Hrun Hn Hnd).
    rewrite (then_unary_result h Negate _ _ _ _ _ Hrun Hn Hnd).
    rewrite Positive_spec_fixed by apply positive_binop_spec.
    by rewrite Negate_spec_positive by apply positive_binop_spec.
  - intros u. destruct Ha as [Hs Ha].
    pose proof (unop_run_items h u self _ a Hs) as Hrun.
    rewrite <-(Nat.add_0_r (length h)) in Hrun.
    set (d := match u with Positive => Positive_spec a | Negate => Negate_spec a end).
    assert (Hn : [Obj COrderedCounter
                    (match u with
                     | Positive => pos_items a
                     | Negate => neg_items a
                     end)] !! 0%nat = Some (Obj COrderedCounter d)).
    { unfold d. destruct u; by rewrite ?pos_items_spec, ?neg_items_spec. }
    assert (Hnd : NoDup (keys d)).
    { unfold d. destruct u;
        [by apply NoDup_Positive_spec | by apply NoDup_Negate_spec]. }
    assert (Hpos : ∀ k v, (k, v) ∈ d → 0 < v).
    { unfold d. destruct u;
        [apply positive_Positive_spec | apply positive_Negate_spec]. }
    exists d. split; [by apply (unop_result h u self COrderedCounter)|].
    rewrite (then_unary_result h Positive _ _ _ _ _ Hrun Hn Hnd).
    rewrite (then_unary_result h Negate _ _ _ _ _ Hrun Hn Hnd).
    by rewrite Positive_spec_fixed, Negate_spec_positive.
Qed.

Lemma unary_after_operation_witness :
  (∀ op, ∃ its,
     result_items (binop_method op 0%nat (VRef 1%nat))
       [Obj COrderedCounter [("a", 2); ("b", -3); ("d", 1)]%char;
        Obj CCounter [("e", 4); ("b", 1); ("d", 2); ("f", -1)]%char]
     = Some its
     ∧ result_items
         (then_unary Positive (binop_method op 0%nat (VRef 1%nat)))
         [Obj COrderedCounter [("a", 2); ("b", -3); ("d", 1)]%char;
          Obj CCounter [("e", 4); ("b", 1); ("d", 2); ("f", -1)]%char]
       = Some its
     ∧ result_items
         (then_unary Negate (binop_method op 0%nat (VRef 1%nat)))
         [Obj COrderedCounter [("a", 2); ("b", -3); ("d", 1)]%char;
          Obj CCounter [("e", 4); ("b", 1); ("d", 2); ("f", -1)]%char]
       = Some [])
  ∧ (∀ u, ∃ its,
     result_items (unop_method u 0%nat)
       [Obj COrderedCounter [("a", 2); ("b", -3); ("d", 1)]%char;
        Obj CCounter [("e", 4); ("b", 1); ("d", 2); ("f", -1)]%char]
     = Some its
     ∧ result_items (then_unary Positive (unop_method u 0%nat))
         [Obj COrderedCounter [("a", 2); ("b", -3); ("d", 1)]%char;
          Obj CCounter [("e", 4); ("b", 1); ("d", 2); ("f", -1)]%char]
       = Some its
     ∧ result_items (then_unary Negate (unop_method u 0%nat))
         [Obj COrderedCounter [("a", 2); ("b", -3); ("d", 1)]%char;
          Obj CCounter [("e", 4); ("b", 1); ("d", 2); ("f", -1)]%char]
       = Some []).
Proof.
  refine (unary_after_operation ascii _
            [Obj COrderedCounter [("a", 2); ("b", -3); ("d", 1)]%char;
             Obj CCounter [("e", 4); ("b", 1); ("d", 2); ("f", -1)]%char]
            0%nat 1%nat CCounter
            [("a", 2); ("b", -3); ("d", 1)]%char
            [("e", 4); ("b", 1); ("d", 2); ("f", -1)]%char _ _ _).
  - split; [reflexivity | by apply (bool_decide_unpack _)].
  - split; [reflexivity | by apply (bool_decide_unpack _)].
  - reflexivity.
Defined.

(** X11.  For operands whose counts are all nonnegative, [(a | b) + (a & b)]
    holds the same key-count pairs as [a + b]. *)
Theorem union_plus_intersection :
  ∀ (K : Type) `(EqDecision K) (h : list object) (self other : loc)
    (co : class) (a b : list (K * Z)),
    dict_at h self COrderedCounter a → dict_at h other co b →
    issubclass co CCounter = true →
    Forall (λ kc, 0 ≤ kc.2) a → Forall (λ kc, 0 ≤ kc.2) b →
    ∃ l r,
      result_items (or_plus_and self (VRef other)) h = Some l
      ∧ result_items (__add__ self (VRef other)) h = Some r
      ∧ l ≡ₚ r.
Proof.
  intros K ? h self other co a b Ha Hb Hc Hpa Hpb.
  exists (Add_spec (Union_spec a b) (Intersect_spec a b)), (Add_spec a b).
  split; [by eapply or_plus_and_result|]. split; [by eapply add_result|].
  destruct Ha as [_ Ha], Hb as [_ Hb].
  apply same_counts_Permutation.
  - apply NoDup_Add_spec;
      [by apply NoDup_Union_spec | by apply NoDup_Intersect_spec].
  - by apply NoDup_Add_spec.
  - apply positive_Add_spec.
  - apply positive_Add_spec.
  - intros k. rewrite !count_of_Add_spec, count_of_Union_spec,
      count_of_Intersect_spec.
    pose proof (count_of_nonneg a k Hpa). pose proof (count_of_nonneg b k Hpb).
    lia.
Qed.

Lemma union_plus_intersection_witness :
  ∃ l r,
    result_items (or_plus_and 0%nat (VRef 1%nat))
      [Obj COrderedCounter [("a", 2); ("b", 3); ("d", 0)]%char;
       Obj CCounter [("e", 4); ("b", 1); ("d", 2)]%char] = Some l
    ∧ result_items (__add__ 0%nat (VRef 1%nat))
      [Obj COrderedCounter [("a", 2); ("b", 3); ("d", 0)]%char;
       Obj CCounter [("e", 4); ("b", 1); ("d", 2)]%char] = Some r
    ∧ l ≡ₚ r.
Proof.
  refine (union_plus_intersection ascii _
            [Obj COrderedCounter [("a", 2); ("b", 3); ("d", 0)]%char;
             Obj CCounter [("e", 4); ("b", 1); ("d", 2)]%char]
            0%nat 1%nat CCounter
            [("a", 2); ("b", 3); ("d", 0)]%char
            [("e", 4); ("b", 1); ("d", 2)]%char _ _ _ _ _).
  - split; [reflexivity | by apply (bool_decide_unpack _)].
  - split; [reflexivity | by apply (bool_decide_unpack _)].
  - reflexivity.
  - by apply (bool_decide_unpack _).
  - by apply (bool_decide_unpack _).
Defined.

(** X12.  Subtracting b and adding it back gives the union: [(a - b) + b]
    holds the same key-count pairs as [a | b], for all counts. *)
Theorem subtract_then_add_back :
  ∀ (K : Type) `(EqDecision K) (h : list object) (self other : loc)
    (co : class) (a b : list (K * Z)),
    dict_at h self COrderedCounter a → dict_at h other co b →
    issubclass co CCounter = true →
    ∃ l r,
      result_items (sub_plus self (VRef other)) h = Some l
      ∧ result_items (__or__ self (VRef other)) h = Some r
      ∧ l ≡ₚ r.
Proof.
  intros K ? h self other co a b Ha Hb Hc.
  exists (Add_spec (Subtract_spec a b) b), (Union_spec a b).
  split; [by eapply sub_plus_result|]. split; [by eapply or_result|].
  destruct Ha as [_ Ha], Hb as [_ Hb].
  apply same_counts_Permutation.
  - apply NoDup_Add_spec; [by apply NoDup_Subtract_spec | done].
  - by apply NoDup_Union_spec.
  - apply positive_Add_spec.
  - apply positive_Union_spec.
  - intros k. rewrite count_of_Add_spec, count_of_Subtract_spec,
      count_of_Union_spec. lia.
Qed.

Lemma subtract_then_add_back_witness :
  ∃ l r,
    result_items (sub_plus 0%nat (VRef 1%nat))
      [Obj COrderedCounter [("a", 2); ("b", -3); ("d", 1)]%char;
       Obj CCounter [("e", 4); ("b", 1); ("d", 2); ("f", -1)]%char] = Some l
    ∧ result_items (__or__ 0%nat (VRef 1%nat))
      [Obj COrderedCounter [("a", 2); ("b", -3); ("d", 1)]%char;
       Obj CCounter [("e", 4); ("b", 1); ("d", 2); ("f", -1)]%char] = Some r
    ∧ l ≡ₚ r.
Proof.
  refine (subtract_then_add_back ascii _
            [Obj COrderedCounter [("a", 2); ("b", -3); ("d", 1)]%char;
             Obj CCounter [("e", 4); ("b", 1); ("d", 2); ("f", -1)]%char]
            0%nat 1%nat CCounter
            [("a", 2); ("b", -3); ("d", 1)]%char
            [("e", 4); ("b", 1); ("d", 2); ("f", -1)]%char _ _ _).
  - split; [reflexivity | by apply (bool_decide_unpack _)].
  - split; [reflexivity | by apply (bool_decide_unpack _)].
  - reflexivity.
Defined.

(** X13.  For operands whose counts are all nonnegative, [a ^ b] gives
    every key the absolute difference of its counts in a and b. *)
Theorem xor_counts_absolute_difference :
  ∀ (K : Type) `(EqDecision K) (h : list object) (self other : loc)
    (co : class) (a b : list (K * Z)),
    dict_at h self COrderedCounter a → dict_at h other co b →
    issubclass co CCounter = true →
    Forall (λ kc, 0 ≤ kc.2) a → Forall (λ kc, 0 ≤ kc.2) b →
    ∃ its,
      result_items (__xor__ self (VRef other)) h = Some its
      ∧ ∀ k, count_of its k = Z.abs (count_of a k - count_of b k).
Proof.
  intros K ? h self other co a b Ha Hb Hc Hpa Hpb.
  eexists. split; [by eapply xor_result|].
  intros k. rewrite count_of_Subtract_spec, count_of_Union_spec,
    count_of_Intersect_spec.
  pose proof (count_of_nonneg a k Hpa). pose proof (count_of_nonneg b k Hpb).
  lia.
Qed.

Lemma xor_counts_absolute_difference_witness :
  ∃ its,
    result_items (__xor__ 0%nat (VRef 1%nat))
      [Obj COrderedCounter [("a", 2); ("b", 3); ("d", 0)]%char;
       Obj CCounter [("e", 4); ("b", 1); ("d", 2)]%char] = Some its
    ∧ ∀ k, count_of its k
           = Z.abs (count_of [("a", 2); ("b", 3); ("d", 0)]%char k
                    - count_of [("e", 4); ("b", 1); ("d", 2)]%char k).
Proof.
  refine (xor_counts_absolute_difference ascii _
            [Obj COrderedCounter [("a", 2); ("b", 3); ("d", 0)]%char;
             Obj CCounter [("e", 4); ("b", 1); ("d", 2)]%char]
            0%nat 1%nat CCounter
            [("a", 2); ("b", 3); ("d", 0)]%char
            [("e", 4); ("b", 1); ("d", 2)]%char _ _ _ _ _).
  - split; [reflexivity | by apply (bool_decide_unpack _)].
  - split; [reflexivity | by apply (bool_decide_unpack _)].
  - reflexivity.
  - by apply (bool_decide_unpack _).
  - by apply (bool_decide_unpack _).
Defined.

(** X14.  [__reduce__] and [__repr__] change no object of the store: each
    builds one new OrderedDict with the items of self in order.  That
    copy is no Counter, so every binary operation given it as operand
    answers NotImplemented. *)
Theorem reduce_and_repr_copy :
  ∀ (K : Type) `(EqDecision K) (h : list object) (self : loc)
    (d : list (K * Z)),
    dict_at h self COrderedCounter d →
    (∃ copy h',
       __reduce__ self h = Some ((COrderedCounter, copy), h')
       ∧ h !! copy = None
       ∧ h' !! copy = Some (Obj COrderedDict d)
       ∧ preserves h h'
       ∧ ∀ op, binop_method op self (VRef copy) h'
               = Some (VNotImplemented, h'))
    ∧ (∃ copy h',
       __repr__ self h = Some (("OrderedCounter"%string, copy), h')
       ∧ h !! copy = None
       ∧ h' !! copy = Some (Obj COrderedDict d)
       ∧ preserves h h').
Proof.
  intros K ? h self d [Hs Hd]. split.
  - exists (length h), (h ++ [Obj COrderedDict d]).
    split; [by apply reduce_run|].
    split; [apply lookup_ge_None; lia|].
    split; [apply lookup_last|].
    split; [apply preserves_app|].
    intros op. apply not_counter_run.
    + cbn [valid]. rewrite lookup_last. by eexists.
    + cbn [is_counter]. by rewrite lookup_last.
  - exists (length h), (h ++ [Obj COrderedDict d]).
    split; [by apply repr_run|].
    split; [apply lookup_ge_None; lia|].
    split; [apply lookup_last | apply preserves_app].
Qed.

Lemma reduce_and_repr_copy_witness :
  (∃ copy h',
     __reduce__ 0%nat [Obj COrderedCounter [("b", 2); ("a", -1)]%char]
     = Some ((COrderedCounter, copy), h')
     ∧ [Obj COrderedCounter [("b", 2); ("a", -1)]%char] !! copy = None
     ∧ h' !! copy = Some (Obj COrderedDict [("b", 2); ("a", -1)]%char)
     ∧ preserves [Obj COrderedCounter [("b", 2); ("a", -1)]%char] h'
     ∧ ∀ op, binop_method op 0%nat (VRef copy) h'
             = Some (VNotImplemented, h'))
  ∧ (∃ copy h',
     __repr__ 0%nat [Obj COrderedCounter [("b", 2); ("a", -1)]%char]
     = Some (("OrderedCounter"%string, copy), h')
     ∧ [Obj COrderedCounter [("b", 2); ("a", -1)]%char] !! copy = None
     ∧ h' !! copy = Some (Obj COrderedDict [("b", 2); ("a", -1)]%char)
     ∧ preserves [Obj COrderedCounter [("b", 2); ("a", -1)]%char] h').
Proof.
  refine (reduce_and_repr_copy ascii _
            [Obj COrderedCounter [("b", 2); ("a", -1)]%char]
            0%nat [("b", 2); ("a", -1)]%char _).
  split; [reflexivity | by apply (bool_decide_unpack _)].
Defined.

(** X15.  An OrderedCounter built from a sequence of elements holds each
    distinct element once, in the order of first occurrence, with the
    number of its occurrences as count, in a new object; the string
    "abbbd" gives [(a,1),(b,3),(d,1)]. *)
Theorem counts_in_first_seen_order :
  (∀ (K : Type) `(EqDecision K) (h : list object) (elems : list K),
     ∃ c h',
       OrderedCounter (SrcIter elems) h = Some (c, h')
       ∧ h !! c = None
       ∧ h' !! c
         = Some (Obj COrderedCounter
                   ((λ k, (k, occurrences elems k)) <$> first_seen elems))
       ∧ preserves h h')
  ∧ (fst <$> (c <- OrderedCounter (chars "abbbd") ;; items c) [])
    = Some [("a", 1); ("b", 3); ("d", 1)]%char.
Proof.
  split; [|reflexivity].
  intros K ? h elems. eexists (length h), _.
  split; [apply counted_run|].
  split; [apply lookup_ge_None; lia|].
  split; [apply lookup_last | apply preserves_app].
Qed.
